(** * Menu scraper: extraction, normalisation, merge and image retrieval

    A shallow embedding of [scraper.py] (with the call sites of [app.py] in
    mind) and the properties its specification states about it.

    Python values are embedded as follows.
    - A Python [str] is a list of Unicode code points ([list N]); [py] turns
      an ASCII literal into such a list.
    - A parsed JSON document is a [pyval]; a Python [dict] keeps insertion
      order, so it is an association list with unique keys.
    - A function that may raise returns a [result]; a function whose only
      failure is the absent value [None] returns an [option]; [json.loads]
      returns a [decoded], which tells [JSONDecodeError] from the exceptions
      that its caller does not catch.
    - The network and the file system are explicit state. *)

From Stdlib Require Import ZArith NArith List String Ascii Lia Bool.
From stdpp Require Import base option list gmap sets strings pretty.

Local Open Scope Z_scope.

(* ===================================================================== *)
(** * Python strings                                                      *)
(* ===================================================================== *)

Module Py.

Abbreviation char := N (only parsing).
Abbreviation str := (list N) (only parsing).

(** An ASCII literal as a Python string. *)
Definition py (s : string) : str :=
  map N_of_ascii (list_ascii_of_string s).

(** One-character literals used by the scanner and by [os.path]. *)
Definition ch (a : ascii) : char := N_of_ascii a.

(** [str.isspace] on a single code point, which is also what [\s] matches in
    a [str] pattern: the code points whose bidirectional class is WS, B or
    S, or whose category is Zs. *)
Definition is_space (c : char) : bool :=
  ((9 <=? c) && (c <=? 13) || (28 <=? c) && (c <=? 32)
   || (c =? 133) || (c =? 160) || (c =? 5760)
   || (8192 <=? c) && (c <=? 8202)
   || (c =? 8232) || (c =? 8233) || (c =? 8239) || (c =? 8287)
   || (c =? 12288))%N.

(** [s.startswith(p)], returning the rest of [s] after [p]. *)
Fixpoint strip_prefix (p s : str) : option str :=
  match p, s with
  | [], _ => Some s
  | a :: p', b :: s' => if (a =? b)%N then strip_prefix p' s' else None
  | _ :: _, [] => None
  end.

(** [s[a:b]] for [0 <= a <= b]. *)
Definition slice (a b : nat) (s : str) : str := take (b - a) (drop a s).

(** [s.lstrip()], [s.rstrip()] and [s.strip()]. *)
Fixpoint lstrip (s : str) : str :=
  match s with
  | c :: s' => if is_space c then lstrip s' else s
  | [] => []
  end.

Definition rstrip (s : str) : str := rev (lstrip (rev s)).

Definition strip (s : str) : str := rstrip (lstrip s).

(** [s.rfind(c)] for a single character [c]: the last index of [c], or
    [-1]. *)
Fixpoint rfind_from (c : char) (i : Z) (last : Z) (s : str) : Z :=
  match s with
  | [] => last
  | x :: s' => rfind_from c (i + 1) (if (x =? c)%N then i else last) s'
  end.

Definition rfind (c : char) (s : str) : Z := rfind_from c 0 (-1) s.

(** [s.split(sep)[0]] for a single character [sep]: the text before the
    first [sep], or all of [s]. *)
Fixpoint split_head (sep : char) (s : str) : str :=
  match s with
  | [] => []
  | x :: s' => if (x =? sep)%N then [] else x :: split_head sep s'
  end.

(** [str(n)] for a non-negative integer. *)
Definition str_of_nat (n : nat) : str := py (pretty n).

(** [needle in s] for two strings. *)
Fixpoint is_infix (needle s : str) : bool :=
  match strip_prefix needle s with
  | Some _ => true
  | None =>
      match s with
      | [] => false
      | _ :: s' => is_infix needle s'
      end
  end.

(** The exceptions that the scraper can meet. *)
Inductive exn :=
| TypeError
| AttributeError
| KeyError
| ValueError
| RecursionError
| RequestException
| RetryError (last : exn).

(** The outcome of a call that may raise. *)
Inductive result (A : Type) :=
| Ok (a : A)
| Raise (e : exn).

Arguments Ok {A} a.
Arguments Raise {A} e.

Definition result_bind {A B : Type} (f : A -> result B) (r : result A)
  : result B :=
  match r with
  | Ok a => f a
  | Raise e => Raise e
  end.

#[global] Instance result_mbind : MBind result := @result_bind.
#[global] Instance result_mret : MRet result := @Ok.

End Py.

Import Py.

(* ===================================================================== *)
(** * Parsed JSON values and the decoder                                  *)
(* ===================================================================== *)

Module Json.

#[local] Set Warnings "-register-all".

(** What [json.loads] returns.  A number with a fraction or an exponent is a
    Python [float]; binary floating point is outside this development, so
    such a number is carried as the literal it was read from. *)
Inductive pyval :=
| PNone
| PBool (b : bool)
| PInt (z : Z)
| PFloat (lit : str)
| PStr (s : str)
| PList (l : list pyval)
| PDict (d : list (str * pyval)).

(** Two values are the same or not. *)
Lemma pyval_eq_dec : forall a b : pyval, {a = b} + {a <> b}.
Proof.
  fix IH 1. intros a b.
  decide equality;
    try solve [apply Bool.bool_dec | apply Z.eq_dec
              | apply (List.list_eq_dec N.eq_dec)
              | apply (List.list_eq_dec IH)].
  apply List.list_eq_dec. intros [k1 v1] [k2 v2].
  destruct (List.list_eq_dec N.eq_dec k1 k2) as [->|Hk];
    [|right; congruence].
  destruct (IH v1 v2) as [->|Hv]; [left; reflexivity|right; congruence].
Defined.

#[global] Instance pyval_eq_decision : EqDecision pyval := pyval_eq_dec.

(** [d[k] = v] on an insertion-ordered dict: a key that is already present
    keeps its place and takes the new value. *)
Fixpoint dict_set (k : str) (v : pyval) (d : list (str * pyval))
  : list (str * pyval) :=
  match d with
  | [] => [(k, v)]
  | (k', v') :: d' =>
      if bool_decide (k' = k) then (k, v) :: d' else (k', v') :: dict_set k v d'
  end.

(** [d.get(k)] as an option, and [k in d]. *)
Fixpoint dict_lookup (k : str) (d : list (str * pyval)) : option pyval :=
  match d with
  | [] => None
  | (k', v) :: d' => if bool_decide (k' = k) then Some v else dict_lookup k d'
  end.

Definition dict_has (k : str) (d : list (str * pyval)) : bool :=
  match dict_lookup k d with Some _ => true | None => false end.

(** ** The decoder

    A model of the standard decoder behind [json.loads] for a [str] input,
    on the JSON grammar: objects, arrays, strings with their escapes,
    numbers, [true], [false], [null], and the non-standard [NaN],
    [Infinity] and [-Infinity] the decoder accepts by default.

    A call of [json.loads] ends in one of three ways: it returns a value,
    it raises [JSONDecodeError] on a text outside the grammar, or it raises
    another exception, which [except json.JSONDecodeError] does not catch:
    [RecursionError] when an object or an array opens deeper than the
    interpreter allows, [ValueError] when an integer has more digits than
    the interpreter converts. *)
Inductive decoded (A : Type) :=
| Decoded (a : A)
| JSONDecodeError
| Raises (e : exn).

Arguments Decoded {A} a.
Arguments JSONDecodeError {A}.
Arguments Raises {A} e.

Definition decoded_bind {A B : Type} (f : A -> decoded B) (d : decoded A)
  : decoded B :=
  match d with
  | Decoded a => f a
  | JSONDecodeError => JSONDecodeError
  | Raises e => Raises e
  end.

#[global] Instance decoded_mbind : MBind decoded := @decoded_bind.

(** A step that can only fail on the grammar. *)
Definition grammar {A : Type} (o : option A) : decoded A :=
  match o with
  | Some a => Decoded a
  | None => JSONDecodeError
  end.

(** The two limits of the interpreter that the decoder can meet.
    [nesting_limit] is the number of objects and arrays that may be open
    around an opening brace or bracket at the call (what is left of the
    recursion limit); [max_str_digits] is [sys.get_int_max_str_digits()],
    where [0] switches the limit off. *)
Record Limits := {
  nesting_limit : nat;
  max_str_digits : nat
}.

(** The limits of an interpreter started with its defaults. *)
Definition default_limits : Limits :=
  {| nesting_limit := 1000; max_str_digits := 4300 |}.

Definition is_json_ws (c : char) : bool :=
  ((c =? 32) || (c =? 9) || (c =? 10) || (c =? 13))%N.

Fixpoint skip_ws (s : str) : str :=
  match s with
  | c :: s' => if is_json_ws c then skip_ws s' else s
  | [] => []
  end.

Definition is_digit (c : char) : bool := ((48 <=? c) && (c <=? 57))%N.

Definition hex_val (c : char) : option N :=
  if is_digit c then Some (c - 48)%N
  else if ((97 <=? c) && (c <=? 102))%N then Some (c - 87)%N
  else if ((65 <=? c) && (c <=? 70))%N then Some (c - 55)%N
  else None.

(** Four hexadecimal digits. *)
Definition hex4 (s : str) : option (N * str) :=
  match s with
  | a :: b :: c :: d :: s' =>
      match hex_val a, hex_val b, hex_val c, hex_val d with
      | Some a, Some b, Some c, Some d =>
          Some (((a * 16 + b) * 16 + c) * 16 + d, s')%N
      | _, _, _, _ => None
      end
  | _ => None
  end.

(** The body of a string literal, after its opening quote.  A [\u] escape
    of a high surrogate followed by one of a low surrogate is one code
    point; control characters are refused. *)
Fixpoint parse_string (fuel : nat) (s : str) : option (str * str) :=
  match fuel with
  | O => None
  | S fuel =>
      match s with
      | [] => None
      | c :: s' =>
          if (c =? 34)%N then Some ([], s')
          else if (c =? 92)%N then
            match s' with
            | [] => None
            | e :: s'' =>
                let simple (x : N) :=
                  '(r, t) ← parse_string fuel s''; Some (x :: r, t) in
                if (e =? 34)%N then simple 34%N
                else if (e =? 92)%N then simple 92%N
                else if (e =? 47)%N then simple 47%N
                else if (e =? 98)%N then simple 8%N
                else if (e =? 102)%N then simple 12%N
                else if (e =? 110)%N then simple 10%N
                else if (e =? 114)%N then simple 13%N
                else if (e =? 116)%N then simple 9%N
                else if (e =? 117)%N then
                  '(u, t) ← hex4 s'';
                  let lone := '(r, t') ← parse_string fuel t; Some (u :: r, t') in
                  if ((55296 <=? u) && (u <=? 56319))%N then
                    match t with
                    | 92%N :: 117%N :: t2 =>
                        match hex4 t2 with
                        | Some (u2, t3) =>
                            if ((56320 <=? u2) && (u2 <=? 57343))%N then
                              '(r, t') ← parse_string fuel t3;
                              Some ((65536 + (u - 55296) * 1024 + (u2 - 56320))%N :: r, t')
                            else lone
                        | None => lone
                        end
                    | _ => lone
                    end
                  else lone
                else None
            end
          else if (c <? 32)%N then None
          else '(r, t) ← parse_string fuel s'; Some (c :: r, t)
      end
  end.

(** The longest run of digits at the head of [s]. *)
Fixpoint span_digits (s : str) : str * str :=
  match s with
  | c :: s' =>
      if is_digit c then let '(d, t) := span_digits s' in (c :: d, t)
      else ([], s)
  | [] => ([], [])
  end.

(** The value of a run of digits. *)
Definition digits_val (d : str) : Z :=
  fold_left (fun acc c => acc * 10 + (Z.of_N c - 48)) d 0.

(** The integer part: an optional minus sign, then a single zero or a run
    of digits that does not start with zero; returned as its text. *)
Definition parse_int_part (s : str) : option (str * str) :=
  let '(sign, s1) :=
    match s with
    | 45%N :: s' => ([45%N], s')
    | _ => ([], s)
    end in
  match s1 with
  | 48%N :: s2 => Some (sign ++ [48%N], s2)
  | c :: _ =>
      if is_digit c then let '(d, t) := span_digits s1 in Some (sign ++ d, t)
      else None
  | [] => None
  end.

(** The optional fraction [\.[0-9]+]. *)
Definition parse_frac (s : str) : str * str :=
  match s with
  | 46%N :: s' =>
      match span_digits s' with
      | ([], _) => ([], s)
      | (d, t) => (46%N :: d, t)
      end
  | _ => ([], s)
  end.

(** The optional exponent [[eE][-+]?[0-9]+]. *)
Definition parse_exp (s : str) : str * str :=
  match s with
  | e :: s' =>
      if ((e =? 101) || (e =? 69))%N then
        let '(sg, s'') :=
          match s' with
          | c :: r => if ((c =? 43) || (c =? 45))%N then ([c], r) else ([], s')
          | [] => ([], s')
          end in
        match span_digits s'' with
        | ([], _) => ([], s)
        | (d, t) => (e :: sg ++ d, t)
        end
      else ([], s)
  | [] => ([], s)
  end.

Definition int_of_text (t : str) : Z :=
  match t with
  | 45%N :: d => - digits_val d
  | d => digits_val d
  end.

(** The number of digits of an integer text, its sign left out. *)
Definition digit_count (t : str) : nat :=
  match t with
  | 45%N :: d => length d
  | d => length d
  end.

(** [int(text)] refuses a text with more digits than the limit. *)
Definition exceeds_digits (lim : Limits) (t : str) : bool :=
  negb (max_str_digits lim =? 0)%nat
  && (max_str_digits lim <? digit_count t)%nat.

(** A number: an integer becomes an [int], and [int] raises [ValueError]
    beyond the digit limit; with a fraction or an exponent it is a
    [float], which has no such limit. *)
Definition parse_number (lim : Limits) (s : str) : decoded (pyval * str) :=
  '(i, s1) ← grammar (parse_int_part s);
  let '(f, s2) := parse_frac s1 in
  let '(e, s3) := parse_exp s2 in
  match f, e with
  | [], [] =>
      if exceeds_digits lim i then Raises ValueError
      else Decoded (PInt (int_of_text i), s3)
  | _, _ => Decoded (PFloat (i ++ f ++ e), s3)
  end.

(** A literal keyword and the value it denotes. *)
Definition parse_keyword (s : str) : option (pyval * str) :=
  let try (k : string) (v : pyval) := t ← strip_prefix (py k) s; Some (v, t) in
  match try "null" PNone with
  | Some r => Some r
  | None =>
  match try "true" (PBool true) with
  | Some r => Some r
  | None =>
  match try "false" (PBool false) with
  | Some r => Some r
  | None =>
  match try "NaN" (PFloat (py "NaN")) with
  | Some r => Some r
  | None =>
  match try "Infinity" (PFloat (py "Infinity")) with
  | Some r => Some r
  | None => try "-Infinity" (PFloat (py "-Infinity"))
  end end end end end.

(** Values, the members of an object after its opening brace, and the
    elements of an array after its opening bracket.  [depth] is the number
    of objects and arrays open around the text being read: the decoder
    enters a recursive call at each opening brace or bracket, before it
    reads anything of the object or array, and the interpreter raises
    [RecursionError] there when none is left. *)
Fixpoint parse_value (lim : Limits) (fuel : nat) (depth : nat) (s : str)
  : decoded (pyval * str) :=
  match fuel with
  | O => JSONDecodeError
  | S fuel =>
      match s with
      | 34%N :: s' =>
          '(r, t) ← grammar (parse_string (S (length s')) s');
          Decoded (PStr r, t)
      | 123%N :: s' =>
          if (nesting_limit lim <=? depth)%nat then Raises RecursionError
          else
            let s1 := skip_ws s' in
            match s1 with
            | 125%N :: t => Decoded (PDict [], t)
            | _ =>
                '(d, t) ← parse_members lim fuel (S depth) [] s1;
                Decoded (PDict d, t)
            end
      | 91%N :: s' =>
          if (nesting_limit lim <=? depth)%nat then Raises RecursionError
          else
            let s1 := skip_ws s' in
            match s1 with
            | 93%N :: t => Decoded (PList [], t)
            | _ =>
                '(l, t) ← parse_elements lim fuel (S depth) s1;
                Decoded (PList l, t)
            end
      | _ =>
          match parse_keyword s with
          | Some r => Decoded r
          | None => parse_number lim s
          end
      end
  end
with parse_members (lim : Limits) (fuel : nat) (depth : nat)
  (acc : list (str * pyval)) (s : str) : decoded (list (str * pyval) * str) :=
  match fuel with
  | O => JSONDecodeError
  | S fuel =>
      match s with
      | 34%N :: s' =>
          '(k, s1) ← grammar (parse_string (S (length s')) s');
          match skip_ws s1 with
          | 58%N :: s2 =>
              '(v, s3) ← parse_value lim fuel depth (skip_ws s2);
              let acc := dict_set k v acc in
              match skip_ws s3 with
              | 125%N :: t => Decoded (acc, t)
              | 44%N :: s4 => parse_members lim fuel depth acc (skip_ws s4)
              | _ => JSONDecodeError
              end
          | _ => JSONDecodeError
          end
      | _ => JSONDecodeError
      end
  end
with parse_elements (lim : Limits) (fuel : nat) (depth : nat) (s : str)
  : decoded (list pyval * str) :=
  match fuel with
  | O => JSONDecodeError
  | S fuel =>
      '(v, s1) ← parse_value lim fuel depth s;
      match skip_ws s1 with
      | 93%N :: t => Decoded ([v], t)
      | 44%N :: s2 =>
          '(l, t) ← parse_elements lim fuel depth (skip_ws s2);
          Decoded (v :: l, t)
      | _ => JSONDecodeError
      end
  end.

(** [json.loads(s)]: one value, with white space allowed around it and
    nothing else after it. *)
Definition json_loads (lim : Limits) (s : str) : decoded pyval :=
  '(v, t) ← parse_value lim (2 * length s + 2)%nat 0 (skip_ws s);
  match skip_ws t with
  | [] => Decoded v
  | _ => JSONDecodeError
  end.

End Json.

Import Json.


(* ===================================================================== *)
(** * Embedded-object extractor ([extract_menu_data])                     *)
(* ===================================================================== *)

Module Extractor.

Definition dquote : char := 34%N.
Definition colon : char := 58%N.
Definition lbrace : char := 123%N.
Definition rbrace : char := 125%N.

(** The two forms of the marker key. *)
Inductive form := Quoted | Bare.

Definition key_of (f : form) : str :=
  match f with
  | Quoted => dquote :: py "menuData" ++ [dquote]
  | Bare => py "menuData"
  end.

(** The rest of either pattern after the key, [\s*:\s*({)], matched at the
    head of [s]: the number of characters before the brace.  Neither the
    colon nor the brace is white space, so the greedy [\s*] never has to
    give characters back. *)
Definition match_tail (s : str) : option nat :=
  match lstrip s with
  | c :: s2 =>
      if (c =? colon)%N then
        match lstrip s2 with
        | c' :: s3 =>
            if (c' =? lbrace)%N then Some (length s - S (length s3))%nat
            else None
        | [] => None
        end
      else None
  | [] => None
  end.

(** The pattern matched at the head of [s]: [match.start(1)], relative to
    [s]. *)
Definition match_at (f : form) (s : str) : option nat :=
  t ← strip_prefix (key_of f) s;
  off ← match_tail t;
  Some (length (key_of f) + off)%nat.

(** [re.search(pattern, s)]: the leftmost position where the pattern
    matches; the result is [match.start(1)], the index of the brace. *)
Fixpoint re_search (f : form) (s : str) : option nat :=
  match match_at f s with
  | Some off => Some off
  | None =>
      match s with
      | [] => None
      | _ :: s' => S <$> re_search f s'
      end
  end.

(** Lines 50-53: the quoted form, then the bare form. *)
Definition find_marker (html_content : str) : option nat :=
  match re_search Quoted html_content with
  | Some i => Some i
  | None => re_search Bare html_content
  end.

(** The loop of lines 59-71 over [html_content[start_index:]], from index
    [i] with the counter at [brace_count]: the index at which the counter
    comes back to zero on a closing brace, if there is one. *)
Fixpoint scan (brace_count : Z) (i : nat) (s : str) : option nat :=
  match s with
  | [] => None
  | c :: s' =>
      if (c =? lbrace)%N then scan (brace_count + 1) (S i) s'
      else if (c =? rbrace)%N then
        let brace_count := brace_count - 1 in
        if brace_count =? 0 then Some i else scan brace_count (S i) s'
      else scan brace_count (S i) s'
  end.

(** Lines 50-76.  The [except] clause of line 69 names [JSONDecodeError]
    alone: that exception becomes [None], and any other exception of the
    decoder leaves the function. *)
Definition extract_menu_data (lim : Limits) (html_content : str)
  : result (option pyval) :=
  match find_marker html_content with
  | Some start_index =>
      match scan 0 0 (drop start_index html_content) with
      | Some i =>
          let json_str :=
            slice start_index (start_index + i + 1) html_content in
          match json_loads lim json_str with
          | Decoded v => Ok (Some v)
          | JSONDecodeError => Ok None
          | Raises e => Raise e
          end
      | None => Ok None
      end
  | None => Ok None
  end.

(** ** What the specification talks about *)

(** The signed brace depth of a text: opening braces minus closing ones. *)
Fixpoint depth (s : str) : Z :=
  match s with
  | [] => 0
  | c :: s' =>
      (if (c =? lbrace)%N then 1 else if (c =? rbrace)%N then -1 else 0)
      + depth s'
  end.

(** The depth of [s] is back at zero after its character [n], and not
    before. *)
Definition closes_at (s : str) (n : nat) : Prop :=
  (n < length s)%nat /\ depth (take (S n) s) = 0
  /\ forall m, (m < n)%nat -> depth (take (S m) s) <> 0.


Definition all_space (ws : str) : Prop := Forall (fun c => is_space c = true) ws.

(** The marker in form [f] occurs in [html] at position [p]: the key,
    white space, a colon, white space, an opening brace. *)
Definition occurs (f : form) (html : str) (p : nat) : Prop :=
  exists ws1 ws2 rest,
    all_space ws1 /\ all_space ws2
    /\ drop p html = key_of f ++ ws1 ++ colon :: ws2 ++ lbrace :: rest.


(** ** Strings and white space *)

Lemma strip_prefix_app (p s : str) : strip_prefix p (p ++ s) = Some s.
Proof.
  induction p as [|a p IH]; simpl; [reflexivity|].
  rewrite N.eqb_refl. exact IH.
Qed.

Lemma strip_prefix_Some (p s t : str) :
  strip_prefix p s = Some t -> s = p ++ t.
Proof.
  revert s; induction p as [|a p IH]; intros s; simpl.
  - intros [= ->]; reflexivity.
  - destruct s as [|b s]; [discriminate|].
    destruct (N.eqb_spec a b) as [->|]; [|discriminate].
    intros H. f_equal. apply IH, H.
Qed.

Lemma lstrip_app (ws : str) (c : char) (r : str) :
  all_space ws -> is_space c = false -> lstrip (ws ++ c :: r) = c :: r.
Proof.
  intros Hws Hc. induction Hws as [|x ws Hx _ IH]; simpl.
  - rewrite Hc. reflexivity.
  - rewrite Hx. exact IH.
Qed.

Lemma lstrip_split (s : str) :
  exists ws, all_space ws /\ s = ws ++ lstrip s.
Proof.
  induction s as [|c s [ws [Hws Hs]]]; simpl.
  - exists []. split; [constructor|reflexivity].
  - destruct (is_space c) eqn:Hc.
    + exists (c :: ws). split; [constructor; assumption|].
      simpl. f_equal. exact Hs.
    + exists []. split; [constructor|reflexivity].
Qed.

(** ** The pattern matcher against the declarative marker *)

Lemma match_tail_complete (ws1 ws2 rest : str) :
  all_space ws1 -> all_space ws2 ->
  match_tail (ws1 ++ colon :: ws2 ++ lbrace :: rest)
  = Some (length ws1 + 1 + length ws2)%nat.
Proof.
  intros H1 H2. unfold match_tail.
  rewrite (lstrip_app ws1 colon) by (assumption || reflexivity).
  rewrite N.eqb_refl.
  rewrite (lstrip_app ws2 lbrace) by (assumption || reflexivity).
  rewrite N.eqb_refl. f_equal.
  rewrite !length_app. simpl. rewrite !length_app. simpl. lia.
Qed.

Lemma match_tail_sound (s : str) (off : nat) :
  match_tail s = Some off ->
  exists ws1 ws2 rest,
    all_space ws1 /\ all_space ws2
    /\ s = ws1 ++ colon :: ws2 ++ lbrace :: rest
    /\ off = (length ws1 + 1 + length ws2)%nat.
Proof.
  unfold match_tail. intros H.
  destruct (lstrip_split s) as [ws1 [H1 Hs]].
  destruct (lstrip s) as [|c s2] eqn:E1; [discriminate|].
  destruct (N.eqb_spec c colon) as [->|]; [|discriminate].
  destruct (lstrip_split s2) as [ws2 [H2 Hs2]].
  destruct (lstrip s2) as [|c' s3] eqn:E2; [discriminate|].
  destruct (N.eqb_spec c' lbrace) as [->|]; [|discriminate].
  injection H as <-.
  exists ws1, ws2, s3. repeat split; try assumption.
  - rewrite Hs at 1. rewrite Hs2 at 1. reflexivity.
  - rewrite Hs, Hs2. rewrite !length_app. simpl. rewrite !length_app.
    simpl. lia.
Qed.

Lemma match_at_complete (f : form) (ws1 ws2 rest : str) :
  all_space ws1 -> all_space ws2 ->
  match_at f (key_of f ++ ws1 ++ colon :: ws2 ++ lbrace :: rest)
  = Some (length (key_of f) + (length ws1 + 1 + length ws2))%nat.
Proof.
  intros H1 H2. unfold match_at.
  rewrite strip_prefix_app. simpl.
  rewrite match_tail_complete by assumption. reflexivity.
Qed.

Lemma match_at_sound (f : form) (s : str) (off : nat) :
  match_at f s = Some off ->
  exists ws1 ws2 rest,
    all_space ws1 /\ all_space ws2
    /\ s = key_of f ++ ws1 ++ colon :: ws2 ++ lbrace :: rest
    /\ off = (length (key_of f) + (length ws1 + 1 + length ws2))%nat.
Proof.
  unfold match_at. intros H.
  destruct (strip_prefix (key_of f) s) as [t|] eqn:Ep; [|discriminate].
  simpl in H.
  destruct (match_tail t) as [o|] eqn:Et; [|discriminate].
  injection H as <-.
  apply strip_prefix_Some in Ep.
  destruct (match_tail_sound _ _ Et) as (ws1 & ws2 & rest & H1 & H2 & -> & ->).
  exists ws1, ws2, rest. repeat split; assumption.
Qed.

Lemma match_at_occurs (f : form) (html : str) (p : nat) :
  occurs f html p <-> match_at f (drop p html) <> None.
Proof.
  split.
  - intros (ws1 & ws2 & rest & H1 & H2 & E). rewrite E.
    rewrite match_at_complete by assumption. discriminate.
  - intros H. destruct (match_at f (drop p html)) as [off|] eqn:E; [|done].
    destruct (match_at_sound _ _ _ E) as (ws1 & ws2 & rest & H1 & H2 & Es & _).
    exists ws1, ws2, rest. repeat split; assumption.
Qed.

(** [re.search] returns the leftmost match. *)
Lemma re_search_leftmost (f : form) (s : str) (n off : nat) :
  (forall p, (p < n)%nat -> match_at f (drop p s) = None) ->
  match_at f (drop n s) = Some off ->
  re_search f s = Some (n + off)%nat.
Proof.
  revert s; induction n as [|n IH]; intros s Hbefore Hat.
  - rewrite drop_0 in Hat. destruct s; simpl; rewrite Hat; reflexivity.
  - destruct s as [|c s].
    + simpl in Hat. specialize (Hbefore 0%nat ltac:(lia)).
      rewrite drop_0 in Hbefore. congruence.
    + simpl re_search.
      rewrite (Hbefore 0%nat ltac:(lia) : match_at f (c :: s) = None).
      rewrite (IH s); [reflexivity| |exact Hat].
      intros p Hp. apply (Hbefore (S p)). lia.
Qed.

Lemma re_search_None (f : form) (s : str) :
  (forall p, match_at f (drop p s) = None) -> re_search f s = None.
Proof.
  induction s as [|c s IH]; intros H.
  - simpl. rewrite (H 0%nat : match_at f [] = None). reflexivity.
  - simpl. rewrite (H 0%nat : match_at f (c :: s) = None).
    rewrite IH; [reflexivity|]. intros p. apply (H (S p)).
Qed.

Lemma re_search_brace (f : form) (s : str) (i : nat) :
  re_search f s = Some i -> exists rest, drop i s = lbrace :: rest.
Proof.
  revert i; induction s as [|c s IH]; intros i; simpl.
  - destruct (match_at f []) eqn:E; [|discriminate].
    intros [= <-]. destruct (match_at_sound _ _ _ E) as (? & ? & ? & _ & _ & Es & _).
    destruct f; discriminate.
  - destruct (match_at f (c :: s)) as [off|] eqn:E.
    + intros [= <-].
      destruct (match_at_sound _ _ _ E) as (ws1 & ws2 & rest & _ & _ & -> & ->).
      exists rest.
      replace (length (key_of f) + (length ws1 + 1 + length ws2))%nat
        with (length (key_of f ++ ws1 ++ colon :: ws2))
        by (rewrite !length_app; simpl; lia).
      rewrite <- (drop_app_length (key_of f ++ ws1 ++ colon :: ws2) (lbrace :: rest)) at 2.
      f_equal. rewrite <- !app_assoc. simpl. reflexivity.
    + destruct (re_search f s) as [j|] eqn:Ej; [|discriminate].
      intros [= <-]. simpl. apply IH. reflexivity.
Qed.

Lemma find_marker_brace (html : str) (start : nat) :
  find_marker html = Some start -> exists rest, drop start html = lbrace :: rest.
Proof.
  unfold find_marker.
  destruct (re_search Quoted html) as [i|] eqn:E.
  - intros [= <-]. eapply re_search_brace, E.
  - apply re_search_brace.
Qed.

(** ** The brace scan against the depth of prefixes *)


Lemma scan_closes (s : str) : forall (bc : Z) (i n : nat),
  0 < bc ->
  (n < length s)%nat ->
  bc + depth (take (S n) s) = 0 ->
  (forall m, (m < n)%nat -> bc + depth (take (S m) s) <> 0) ->
  scan bc i s = Some (i + n)%nat.
Proof.
  induction s as [|c s IH]; intros bc i n Hbc Hn Hz Hnz; simpl in Hn; [lia|].
  simpl.
  destruct n as [|n].
  - simpl in Hz.
    destruct (c =? lbrace)%N; [lia|].
    destruct (c =? rbrace)%N; [|lia].
    destruct (Z.eqb_spec (bc - 1) 0); [|lia].
    f_equal. lia.
  - pose proof (Hnz 0%nat ltac:(lia)) as H0. simpl in H0.
    assert (Hz' : forall d, (if (c =? lbrace)%N then 1 else if (c =? rbrace)%N then -1 else 0) = d ->
              bc + d + depth (take (S n) s) = 0
              /\ forall m, (m < n)%nat -> bc + d + depth (take (S m) s) <> 0).
    { intros d <-. split.
      - simpl in Hz. lia.
      - intros m Hm. specialize (Hnz (S m) ltac:(lia)). simpl in Hnz. lia. }
    replace (i + S n)%nat with (S i + n)%nat by lia.
    destruct (c =? lbrace)%N.
    + destruct (Hz' 1 eq_refl). apply IH; (assumption || lia).
    + destruct (c =? rbrace)%N.
      * destruct (Z.eqb_spec (bc - 1) 0) as [E|_]; [lia|].
        destruct (Hz' (-1) eq_refl) as [A B].
        apply IH; try lia.
        intros m Hm. specialize (B m Hm). lia.
      * destruct (Hz' 0 eq_refl) as [A B].
        apply IH; try lia.
        intros m Hm. specialize (B m Hm). lia.
Qed.

(** From an opening brace, the loop stops exactly where the depth first
    comes back to zero. *)
Lemma scan_closes_at (rest : str) (n : nat) :
  closes_at (lbrace :: rest) n -> scan 0 0 (lbrace :: rest) = Some n.
Proof.
  intros (Hn & Hz & Hnz).
  destruct n as [|n]; [simpl in Hz; lia|].
  change (scan 0 0 (lbrace :: rest)) with (scan (0 + 1) 1 rest).
  rewrite (scan_closes rest (0 + 1) 1 n); [reflexivity|lia|simpl in Hn; lia| |].
  - simpl in Hz. lia.
  - intros m Hm. specialize (Hnz (S m) ltac:(lia)). simpl in Hnz. lia.
Qed.



Lemma re_search_found (f : form) (s : str) (p : nat) :
  match_at f (drop p s) <> None -> re_search f s <> None.
Proof.
  revert p; induction s as [|c s IH]; intros p H.
  - rewrite drop_nil in H. simpl. destruct (match_at f []); done.
  - simpl. destruct (match_at f (c :: s)) eqn:E; [done|].
    destruct p as [|p]; [rewrite drop_0 in H; congruence|].
    simpl in H. specialize (IH p H).
    destruct (re_search f s); done.
Qed.


(** A decision procedure for the absence of the marker before position
    [n], used on concrete documents. *)
Definition no_match_before (f : form) (html : str) (n : nat) : bool :=
  forallb (fun p => match match_at f (drop p html) with
                    | None => true
                    | Some _ => false
                    end) (seq 0 n).

Lemma no_match_before_spec (f : form) (html : str) (n : nat) :
  no_match_before f html n = true ->
  forall p, (p < n)%nat -> ~ occurs f html p.
Proof.
  unfold no_match_before. rewrite forallb_forall. intros H p Hp Hocc.
  apply match_at_occurs in Hocc.
  specialize (H p). rewrite in_seq in H. specialize (H ltac:(lia)).
  destruct (match_at f (drop p html)); done.
Qed.

Lemma no_match_spec (f : form) (html : str) :
  no_match_before f html (S (length html)) = true ->
  forall p, ~ occurs f html p.
Proof.
  intros H p Hocc.
  destruct (le_lt_dec p (length html)) as [Hp|Hp].
  - apply (no_match_before_spec _ _ _ H p); [lia|exact Hocc].
  - destruct Hocc as (ws1 & ws2 & rest & _ & _ & E).
    rewrite drop_ge in E by lia. destruct f; discriminate.
Qed.

(** A decision procedure for "the depth of [obj] is not zero before its
    end", used on concrete documents. *)
Definition open_until_end (obj : str) : bool :=
  forallb (fun n => negb (depth (take n obj) =? 0)) (seq 1 (length obj - 1)).

Lemma open_until_end_spec (obj : str) :
  open_until_end obj = true ->
  forall n, (0 < n < length obj)%nat -> depth (take n obj) <> 0.
Proof.
  unfold open_until_end. rewrite forallb_forall. intros H n Hn.
  specialize (H n). rewrite in_seq in H. specialize (H ltac:(lia)).
  destruct (Z.eqb_spec (depth (take n obj)) 0); [discriminate|assumption].
Qed.

(** A JSON string literal without escapes. *)
Definition quote (s : str) : str := dquote :: s ++ [dquote].





(** Arrays nested [n] deep around an empty array. *)
Fixpoint nested (n : nat) : pyval :=
  match n with
  | O => PList []
  | S n => PList [nested n]
  end.

(** ** The claims about the extractor *)

(** C2 (amended).  Let the document be [pre ++ key ++ ws1 ++ ":" ++ ws2 ++
    obj ++ post], where [key] is the marker key in either form, [ws1] and
    [ws2] are white space, [obj] starts with an opening brace, the brace
    depth of [obj] is zero at its end and at no earlier point, and
    [json.loads] returns [v] on [obj]: [obj] is in the grammar and within
    the nesting and digit limits of the interpreter.  If this is the
    leftmost occurrence of the marker in that form, and, for the bare form,
    the quoted form occurs nowhere in the document, then
    [extract_menu_data] returns [v]. *)
Theorem extract_menu_data_first_marker
    (lim : Limits) (f : form) (pre ws1 ws2 body post : str) (v : pyval) :
  let obj := lbrace :: body in
  let html := pre ++ key_of f ++ ws1 ++ colon :: ws2 ++ obj ++ post in
  all_space ws1 -> all_space ws2 ->
  depth obj = 0 ->
  (forall n, (0 < n < length obj)%nat -> depth (take n obj) <> 0) ->
  json_loads lim obj = Decoded v ->
  (forall p, (p < length pre)%nat -> ~ occurs f html p) ->
  (f = Bare -> forall p, ~ occurs Quoted html p) ->
  extract_menu_data lim html = Ok (Some v).
Proof.
  intros obj html H1 H2 Hd Hnz Hv Hleft Hquoted.
  set (start := (length pre + (length (key_of f) + (length ws1 + 1 + length ws2)))%nat).
  assert (Hdrop : drop (length pre) html
                  = key_of f ++ ws1 ++ colon :: ws2 ++ lbrace :: (body ++ post)).
  { unfold html. rewrite drop_app_length. reflexivity. }
  assert (Hsearch : re_search f html = Some start).
  { apply re_search_leftmost.
    - intros p Hp. specialize (Hleft p Hp). rewrite match_at_occurs in Hleft.
      destruct (match_at f (drop p html)); [exfalso; apply Hleft; discriminate|reflexivity].
    - rewrite Hdrop. apply match_at_complete; assumption. }
  assert (Hfind : find_marker html = Some start).
  { unfold find_marker. destruct f.
    - rewrite Hsearch. reflexivity.
    - rewrite re_search_None; [exact Hsearch|].
      intros p. specialize (Hquoted eq_refl p). rewrite match_at_occurs in Hquoted.
      destruct (match_at Quoted (drop p html)); [exfalso; apply Hquoted; discriminate|reflexivity]. }
  assert (Hrest : drop start html = obj ++ post).
  { unfold start. rewrite <- drop_drop, Hdrop.
    replace (length (key_of f) + (length ws1 + 1 + length ws2))%nat
      with (length (key_of f ++ ws1 ++ colon :: ws2))
      by (rewrite !length_app; simpl; lia).
    replace (key_of f ++ ws1 ++ colon :: ws2 ++ lbrace :: body ++ post)
      with ((key_of f ++ ws1 ++ colon :: ws2) ++ obj ++ post)
      by (rewrite <- !app_assoc; reflexivity).
    apply drop_app_length. }
  assert (Hclose : closes_at (lbrace :: body ++ post) (length body)).
  { change (lbrace :: body ++ post) with (obj ++ post).
    assert (Hlen : length obj = S (length body)) by reflexivity.
    repeat split.
    - rewrite length_app. lia.
    - rewrite <- Hlen, take_app_length. exact Hd.
    - intros m Hm. rewrite take_app_le by lia. apply Hnz. lia. }
  unfold extract_menu_data. rewrite Hfind, Hrest.
  change (obj ++ post) with (lbrace :: body ++ post).
  rewrite (scan_closes_at _ _ Hclose).
  unfold slice.
  replace (start + length body + 1 - start)%nat with (length obj)
    by (simpl; lia).
  rewrite Hrest, take_app_length, Hv. reflexivity.
Qed.

(** The amended C2 at a concrete page: the bare key, after which the
    object holds a nested object. *)
Lemma extract_menu_data_first_marker_witness :
  extract_menu_data default_limits
    (py "<script>x={" ++ key_of Bare ++ [] ++ colon :: [32%N]
     ++ (lbrace :: quote (py "items") ++ py ":[{" ++ quote (py "id") ++ py ":1}]}")
     ++ py ";</script>")
  = Ok (Some (PDict [(py "items", PList [PDict [(py "id", PInt 1)]])])).
Proof.
  apply (extract_menu_data_first_marker default_limits Bare
           (py "<script>x={") [] [32%N]
           (quote (py "items") ++ py ":[{" ++ quote (py "id") ++ py ":1}]}")
           (py ";</script>")).
  - constructor.
  - repeat constructor.
  - vm_compute. reflexivity.
  - apply open_until_end_spec. vm_compute. reflexivity.
  - vm_compute. reflexivity.
  - apply no_match_before_spec. vm_compute. reflexivity.
  - intros _. apply no_match_spec. vm_compute. reflexivity.
Defined.

(** C2 as the specification words it does not hold.  Five pages, each
    holding the key followed by an object with balanced braces in the JSON
    grammar, on which [extract_menu_data] does not return the object.  On
    three it returns [None]: the colon is left out; a string inside the
    object holds braces, so that the depth is back at zero before the end
    of the object; an earlier occurrence of the marker is followed by text
    that is not JSON.  On two it raises: the object holds arrays nested
    1500 deep, which an interpreter with a thousand levels left refuses
    with [RecursionError]; the object holds an integer of 4301 digits,
    which [int] refuses with [ValueError] under the default limit of 4300
    digits.  With more room the decoder reads both. *)
Lemma extract_menu_data_counterexample :
  (depth (py "{}") = 0
   /\ json_loads default_limits (py "{}") = Decoded (PDict [])
   /\ extract_menu_data default_limits (key_of Quoted ++ py "{}") = Ok None)
  /\ (let obj := py "{" ++ quote (py "a") ++ py ":" ++ quote (py "}{") ++ py "}" in
      depth obj = 0
      /\ json_loads default_limits obj = Decoded (PDict [(py "a", PStr (py "}{"))])
      /\ extract_menu_data default_limits (key_of Quoted ++ py ": " ++ obj)
         = Ok None)
  /\ (json_loads default_limits (py "{}") = Decoded (PDict [])
      /\ extract_menu_data default_limits
           (key_of Quoted ++ py ":{x} " ++ key_of Quoted ++ py ":" ++ py "{}")
         = Ok None)
  /\ (let obj := py "{" ++ quote (py "a") ++ py ":"
                 ++ repeat 91%N 1500 ++ repeat 93%N 1500 ++ py "}" in
      depth obj = 0
      /\ json_loads {| nesting_limit := 2000; max_str_digits := 4300 |} obj
         = Decoded (PDict [(py "a", nested 1499)])
      /\ extract_menu_data default_limits (key_of Quoted ++ py ":" ++ obj)
         = Raise RecursionError)
  /\ (let obj := py "{" ++ quote (py "a") ++ py ":"
                 ++ repeat 49%N 4301 ++ py "}" in
      depth obj = 0
      /\ json_loads {| nesting_limit := 1000; max_str_digits := 0 |} obj
         = Decoded (PDict [(py "a", PInt (digits_val (repeat 49%N 4301)))])
      /\ extract_menu_data default_limits (key_of Quoted ++ py ":" ++ obj)
         = Raise ValueError).
Proof.
  vm_compute. repeat split; reflexivity.
Qed.




(** ** Further properties of the extractor *)

Lemma re_search_sound (f : form) (s : str) : forall (i : nat),
  re_search f s = Some i ->
  exists p off,
    match_at f (drop p s) = Some off /\ i = (p + off)%nat
    /\ forall p', (p' < p)%nat -> match_at f (drop p' s) = None.
Proof.
  induction s as [|c s IH]; intros i; simpl.
  - destruct (match_at f []) as [off|] eqn:E; [|discriminate].
    intros [= <-]. exists 0%nat, off. repeat split; [exact E|lia].
  - destruct (match_at f (c :: s)) as [off|] eqn:E.
    + intros [= <-]. exists 0%nat, off. repeat split; [exact E|lia].
    + destruct (re_search f s) as [j|] eqn:Ej; [|discriminate].
      intros [= <-]. destruct (IH j eq_refl) as (p & off & Hm & -> & Hleft).
      exists (S p), off. repeat split; [exact Hm|].
      intros [|p'] Hp'; [exact E|]. apply Hleft. lia.
Qed.

Lemma re_search_None_inv (f : form) (s : str) :
  re_search f s = None -> forall p, match_at f (drop p s) = None.
Proof.
  intros Hnone p.
  destruct (match_at f (drop p s)) as [off|] eqn:E; [|reflexivity].
  exfalso. apply (re_search_found f s p); [rewrite E; discriminate|exact Hnone].
Qed.

Lemma scan_Some (s : str) : forall (bc : Z) (i j : nat),
  0 < bc ->
  scan bc i s = Some j ->
  exists n, j = (i + n)%nat /\ (n < length s)%nat
            /\ bc + depth (take (S n) s) = 0
            /\ forall m, (m < n)%nat -> bc + depth (take (S m) s) <> 0.
Proof.
  induction s as [|c s IH]; intros bc i j Hbc; simpl; [discriminate|].
  assert (Hstep : forall bc', 0 < bc' ->
            bc' = bc + (if (c =? lbrace)%N then 1
                        else if (c =? rbrace)%N then -1 else 0) ->
            scan bc' (S i) s = Some j ->
            exists n, j = (i + n)%nat /\ (n < S (length s))%nat
              /\ bc + ((if (c =? lbrace)%N then 1
                        else if (c =? rbrace)%N then -1 else 0)
                       + depth (take n s)) = 0
              /\ forall m, (m < n)%nat ->
                   bc + ((if (c =? lbrace)%N then 1
                          else if (c =? rbrace)%N then -1 else 0)
                         + depth (take m s)) <> 0).
  { intros bc' Hpos Hbc' Hscan.
    destruct (IH bc' (S i) j Hpos Hscan) as (n & -> & Hn & Hz & Hnz).
    exists (S n). repeat split; [lia|lia|lia|].
    intros [|m] Hm; [simpl; lia|]. specialize (Hnz m ltac:(lia)). lia. }
  destruct (c =? lbrace)%N eqn:El.
  - intros Hscan. apply (Hstep (bc + 1)); [lia|lia|exact Hscan].
  - destruct (c =? rbrace)%N eqn:Er.
    + destruct (Z.eqb_spec (bc - 1) 0) as [E|E].
      * intros [= <-]. exists 0%nat. repeat split; [lia|lia|simpl; lia|lia].
      * intros Hscan. apply (Hstep (bc - 1)); [lia|lia|exact Hscan].
    + intros Hscan. apply (Hstep bc); [lia|lia|exact Hscan].
Qed.

Lemma scan_closes_at_inv (rest : str) (n : nat) :
  scan 0 0 (lbrace :: rest) = Some n -> closes_at (lbrace :: rest) n.
Proof.
  change (scan 0 0 (lbrace :: rest)) with (scan 1 1 rest). intros Hscan.
  destruct (scan_Some rest 1 1 n ltac:(lia) Hscan) as (k & -> & Hk & Hz & Hnz).
  repeat split.
  - simpl. lia.
  - simpl. simpl in Hz. lia.
  - intros [|m] Hm; [simpl; lia|].
    specialize (Hnz m ltac:(lia)). simpl. simpl in Hnz. lia.
Qed.

(** The decoder reads a text that starts with an opening brace as an
    object, if it reads it at all. *)
Lemma json_loads_object (lim : Limits) (s : str) (v : pyval) :
  json_loads lim (lbrace :: s) = Decoded v -> exists d, v = PDict d.
Proof.
  unfold json_loads. change (skip_ws (lbrace :: s)) with (lbrace :: s).
  destruct (2 * length (lbrace :: s) + 2)%nat as [|fuel]; [discriminate|].
  simpl parse_value. intros H.
  destruct (nesting_limit lim <=? 0)%nat; [discriminate|].
  destruct (skip_ws s) as [|c t] eqn:Hs.
  - destruct (parse_members lim fuel 1 [] []) as [[d t]| |e]; simpl in H;
      [|discriminate..].
    destruct (skip_ws t); [|discriminate]. injection H as <-. eauto.
  - destruct (c =? 125)%N eqn:Hc.
    + apply N.eqb_eq in Hc. subst c. simpl in H.
      destruct (skip_ws t); [|discriminate]. injection H as <-. eauto.
    + assert (Hm : exists r, (let s1 := c :: t in
                 match s1 with
                 | 125%N :: t => Decoded (PDict [], t)
                 | _ => '(d, t) ← parse_members lim fuel 1 [] s1; Decoded (PDict d, t)
                 end) = '(d, t) ← r; Decoded (PDict d, t)).
      { exists (parse_members lim fuel 1 [] (c :: t)).
        cbv zeta. repeat case_match; try reflexivity.
        subst. rewrite N.eqb_refl in Hc. discriminate. }
      destruct Hm as [r Hm]. cbv zeta in Hm, H. rewrite Hm in H.
      destruct r as [[d t']| |e]; simpl in H; [|discriminate..].
      destruct (skip_ws t'); [|discriminate]. injection H as <-. eauto.
Qed.

(** X1.  When no form of the marker occurs in the page, the result is
    [None]. *)
Theorem extract_menu_data_no_marker (lim : Limits) (html : str) :
  (forall f p, ~ occurs f html p) -> extract_menu_data lim html = Ok None.
Proof.
  intros Hno.
  assert (Hsearch : forall f, re_search f html = None).
  { intros f. apply re_search_None. intros p.
    specialize (Hno f p). rewrite match_at_occurs in Hno.
    destruct (match_at f (drop p html)); [exfalso; apply Hno; discriminate|reflexivity]. }
  unfold extract_menu_data, find_marker. rewrite !Hsearch. reflexivity.
Qed.

Lemma extract_menu_data_no_marker_witness :
  extract_menu_data default_limits
    (py "<script>var menu = {items: []};</script>") = Ok None.
Proof.
  apply extract_menu_data_no_marker.
  intros f. destruct f; apply no_match_spec; vm_compute; reflexivity.
Defined.

(** X2.  Whatever [extract_menu_data] returns was read from the page: the value
    is the decoding of the text that starts at the brace of the leftmost
    occurrence of the marker (in the quoted form if that form occurs at
    all) and ends where the brace depth is first back at zero. *)
Theorem extract_menu_data_sound (lim : Limits) (html : str) (v : pyval) :
  extract_menu_data lim html = Ok (Some v) ->
  exists f p ws1 ws2 rest n,
    all_space ws1 /\ all_space ws2
    /\ drop p html = key_of f ++ ws1 ++ colon :: ws2 ++ lbrace :: rest
    /\ (forall p', (p' < p)%nat -> ~ occurs f html p')
    /\ (f = Bare -> forall p', ~ occurs Quoted html p')
    /\ closes_at (lbrace :: rest) n
    /\ json_loads lim (take (S n) (lbrace :: rest)) = Decoded v.
Proof.
  unfold extract_menu_data. intros H.
  destruct (find_marker html) as [start|] eqn:Hfind; [|discriminate].
  destruct (find_marker_brace _ _ Hfind) as [rest0 Hrest0].
  rewrite Hrest0 in H.
  destruct (scan 0 0 (lbrace :: rest0)) as [n|] eqn:Hscan; [|discriminate].
  apply scan_closes_at_inv in Hscan.
  unfold slice in H.
  replace (start + n + 1 - start)%nat with (S n) in H by lia.
  rewrite Hrest0 in H.
  assert (H' : json_loads lim (take (S n) (lbrace :: rest0)) = Decoded v).
  { destruct (json_loads lim (take (S n) (lbrace :: rest0)));
      [congruence|discriminate..]. }
  clear H. rename H' into H.
  assert (Hform : exists f, re_search f html = Some start
                            /\ (f = Bare -> re_search Quoted html = None)).
  { unfold find_marker in Hfind.
    destruct (re_search Quoted html) as [i|] eqn:EQ.
    - exists Quoted. split; [congruence|discriminate].
    - exists Bare. split; [exact Hfind|reflexivity]. }
  destruct Hform as (f & Hsearch & Hquoted).
  destruct (re_search_sound _ _ _ Hsearch) as (p & off & Hm & -> & Hleft).
  destruct (match_at_sound _ _ _ Hm) as (ws1 & ws2 & rest & H1 & H2 & Hdrop & ->).
  assert (Hsame : rest0 = rest).
  { rewrite <- drop_drop, Hdrop in Hrest0.
    replace (length (key_of f) + (length ws1 + 1 + length ws2))%nat
      with (length (key_of f ++ ws1 ++ colon :: ws2)) in Hrest0
      by (rewrite !length_app; simpl; lia).
    replace (key_of f ++ ws1 ++ colon :: ws2 ++ lbrace :: rest)
      with ((key_of f ++ ws1 ++ colon :: ws2) ++ lbrace :: rest) in Hrest0
      by (rewrite <- !app_assoc; reflexivity).
    rewrite drop_app_length in Hrest0. congruence. }
  subst rest0.
  exists f, p, ws1, ws2, rest, n.
  split; [exact H1|]. split; [exact H2|]. split; [exact Hdrop|].
  split; [|split; [|split; [exact Hscan|exact H]]].
  - intros p' Hp' Hocc. apply match_at_occurs in Hocc.
    rewrite (Hleft p' Hp') in Hocc. congruence.
  - intros Hf p' Hocc. apply match_at_occurs in Hocc.
    rewrite (re_search_None_inv _ _ (Hquoted Hf) p') in Hocc. congruence.
Qed.

Lemma extract_menu_data_sound_witness :
  exists f p ws1 ws2 rest n,
    all_space ws1 /\ all_space ws2
    /\ drop p (py "x = {menuData: {}}")
       = key_of f ++ ws1 ++ colon :: ws2 ++ lbrace :: rest
    /\ (forall p', (p' < p)%nat -> ~ occurs f (py "x = {menuData: {}}") p')
    /\ (f = Bare -> forall p', ~ occurs Quoted (py "x = {menuData: {}}") p')
    /\ closes_at (lbrace :: rest) n
    /\ json_loads default_limits (take (S n) (lbrace :: rest))
       = Decoded (PDict []).
Proof.
  apply (extract_menu_data_sound default_limits
           (py "x = {menuData: {}}") (PDict [])).
  vm_compute. reflexivity.
Defined.

(** X3.  Whatever [extract_menu_data] returns is an object. *)
Theorem extract_menu_data_object (lim : Limits) (html : str) (v : pyval) :
  extract_menu_data lim html = Ok (Some v) -> exists d, v = PDict d.
Proof.
  unfold extract_menu_data. intros H.
  destruct (find_marker html) as [start|] eqn:Hfind; [|discriminate].
  destruct (find_marker_brace _ _ Hfind) as [rest Hrest].
  destruct (scan 0 0 (drop start html)) as [n|]; [|discriminate].
  unfold slice in H. rewrite Hrest in H.
  replace (start + n + 1 - start)%nat with (S n) in H by lia.
  destruct (json_loads lim (take (S n) (lbrace :: rest))) as [v'| |e] eqn:Hl;
    [|discriminate..].
  injection H as ->.
  change (take (S n) (lbrace :: rest)) with (lbrace :: take n rest) in Hl.
  eapply json_loads_object, Hl.
Qed.

Lemma extract_menu_data_object_witness :
  exists d, PDict [(py "items", PList [])] = PDict d.
Proof.
  apply (extract_menu_data_object default_limits
           (quote (py "menuData") ++ py ":{" ++ quote (py "items") ++ py ":[]}")).
  vm_compute. reflexivity.
Defined.

End Extractor.

Import Extractor.

(* ===================================================================== *)
(** * Item normaliser ([process_menu_data])                               *)
(* ===================================================================== *)

(** One catalogue entry in one locale; [V] is the type of a field value. *)
Record MenuItem (V : Type) := mkMenuItem {
  id : V;
  name : V;
  description : V;
  price : V;
  originalSection : V;
  image : V;
  originalImage : V;
  sectionName : V
}.

Arguments mkMenuItem {V}.
Arguments id {V}.
Arguments name {V}.
Arguments description {V}.
Arguments price {V}.
Arguments originalSection {V}.
Arguments image {V}.
Arguments originalImage {V}.
Arguments sectionName {V}.

Module Normalizer.

(** ** The Python operations the function applies to its argument *)

(** The exponent of a float literal: an optional sign and digits. *)
Definition exponent_val (t : str) : Z :=
  match t with
  | 43%N :: d => digits_val d
  | 45%N :: d => - digits_val d
  | d => digits_val d
  end.

(** The decimal that a float literal writes, as digits [m] and a power of
    ten [k] for [m * 10^k], up to its sign; [NaN] and the infinities write
    none. *)
Definition float_decimal (lit : str) : option (Z * Z) :=
  let mantissa := split_head 101%N (split_head 69%N lit) in
  let exponent := drop (S (length mantissa)) lit in
  let fraction := drop (S (length (split_head 46%N mantissa))) mantissa in
  if existsb is_digit mantissa
  then Some (digits_val (List.filter is_digit mantissa),
             exponent_val exponent - Z.of_nat (length fraction))
  else None.

(** [float(lit) == 0.0].  [float] rounds the decimal to the nearest
    binary64 number, ties to even: the result is zero when the digits are
    all zero, and when the decimal is at most [2^-1075], half of the least
    positive binary64 number. *)
Definition float_is_zero (lit : str) : bool :=
  match float_decimal lit with
  | Some (m, k) => (m =? 0) || ((k <? 0) && (m * 2 ^ 1075 <=? 10 ^ (- k)))
  | None => false
  end.

(** [bool(v)]. *)
Definition truthy (v : pyval) : bool :=
  match v with
  | PNone => false
  | PBool b => b
  | PInt z => negb (z =? 0)
  | PFloat lit => negb (float_is_zero lit)
  | PStr s => match s with [] => false | _ => true end
  | PList l => match l with [] => false | _ => true end
  | PDict d => match d with [] => false | _ => true end
  end.

(** [k in v] for a string [k]: a key of a dict, a substring of a string,
    an element of a list; other values are not containers. *)
Definition contains (k : str) (v : pyval) : result bool :=
  match v with
  | PDict d => Ok (dict_has k d)
  | PStr s => Ok (is_infix k s)
  | PList l =>
      Ok (existsb (fun x => match x with
                            | PStr t => bool_decide (t = k)
                            | _ => false
                            end) l)
  | _ => Raise TypeError
  end.

(** [v[k]] for a string [k]. *)
Definition subscript (k : str) (v : pyval) : result pyval :=
  match v with
  | PDict d =>
      match dict_lookup k d with
      | Some x => Ok x
      | None => Raise KeyError
      end
  | _ => Raise TypeError
  end.

(** The values that [for item in v] goes through. *)
Definition iterate (v : pyval) : result (list pyval) :=
  match v with
  | PList l => Ok l
  | PDict d => Ok (map (fun kv => PStr kv.1) d)
  | PStr s => Ok (map (fun c => PStr [c]) s)
  | _ => Raise TypeError
  end.

(** [item.get(k)]: only a dict has the method. *)
Definition get (k : string) (item : pyval) : result pyval :=
  match item with
  | PDict d =>
      match dict_lookup (py k) d with
      | Some x => Ok x
      | None => Ok PNone
      end
  | _ => Raise AttributeError
  end.

(** ** The function *)

(** Lines 86-95: the record built from one entry. *)
Definition process_item (item : pyval) : result (MenuItem pyval) :=
  i ← get "id" item;
  n ← get "name" item;
  d ← get "description" item;
  p ← get "price" item;
  o ← get "originalSection" item;
  im ← get "image" item;
  oi ← get "originalImage" item;
  s ← get "sectionName" item;
  Ok (mkMenuItem i n d p o im oi s).

(** The loop of lines 84-96: it stops at the first entry that raises. *)
Fixpoint process_items (entries : list pyval) : result (list (MenuItem pyval)) :=
  match entries with
  | [] => Ok []
  | item :: rest =>
      processed_item ← process_item item;
      items ← process_items rest;
      Ok (processed_item :: items)
  end.

Definition process_menu_data (menu_data : pyval)
  : result (list (MenuItem pyval)) :=
  if negb (truthy menu_data) then Ok []
  else
    has ← contains (py "items") menu_data;
    if negb has then Ok []
    else
      entries ← subscript (py "items") menu_data ≫= iterate;
      process_items entries.

(** ** What the specification talks about *)

(** A field of an entry: its value under the key, null when the key is
    missing. *)
Definition field (k : string) (entry : list (str * pyval)) : pyval :=
  default PNone (dict_lookup (py k) entry).

(** The record of one entry that is an object. *)
Definition record_of (entry : list (str * pyval)) : MenuItem pyval :=
  mkMenuItem (field "id" entry) (field "name" entry)
    (field "description" entry) (field "price" entry)
    (field "originalSection" entry) (field "image" entry)
    (field "originalImage" entry) (field "sectionName" entry).

Definition is_object (v : pyval) : Prop := exists d, v = PDict d.

(** The keys a record is read from. *)
Definition item_keys : list string :=
  ["id"; "name"; "description"; "price"; "originalSection"; "image";
   "originalImage"; "sectionName"]%string.

Lemma get_object (k : string) (d : list (str * pyval)) :
  get k (PDict d) = Ok (field k d).
Proof.
  unfold get, field. destruct (dict_lookup (py k) d); reflexivity.
Qed.

Lemma process_item_object (d : list (str * pyval)) :
  process_item (PDict d) = Ok (record_of d).
Proof.
  unfold process_item. rewrite !get_object. reflexivity.
Qed.

Lemma process_items_objects (entries : list pyval) :
  Forall is_object entries ->
  exists items,
    process_items entries = Ok items
    /\ length items = length entries
    /\ forall (i : nat) (d : list (str * pyval)),
         entries !! i = Some (PDict d) -> items !! i = Some (record_of d).
Proof.
  induction 1 as [|e entries [d ->] _ (items & E & Hlen & Hnth)].
  - exists []. repeat split. intros i d H. discriminate.
  - exists (record_of d :: items). simpl.
    rewrite process_item_object. simpl. rewrite E. simpl.
    repeat split; [congruence|].
    intros [|i] d' H; simpl in *; [congruence|auto].
Qed.

(** Keys other than the eight of [item_keys] do not matter. *)
Lemma record_of_ext (d d' : list (str * pyval)) :
  (forall k, In k item_keys -> dict_lookup (py k) d = dict_lookup (py k) d') ->
  record_of d = record_of d'.
Proof.
  intros H. unfold record_of, field.
  rewrite !H by (simpl; tauto). reflexivity.
Qed.

(** ** The claims about the normaliser *)

(** C7 (amended).  For the absent input and for an object without the key
    [items], the result is the empty sequence.  For an object whose
    [items] is a list of objects, the result has one record per entry, in
    the order of the entries; each field of a record is the value of the
    entry under that key, null when the entry lacks the key; the other
    keys of an entry have no effect on its record. *)
Theorem process_menu_data_records :
  process_menu_data PNone = Ok []
  /\ (forall d, dict_has (py "items") d = false ->
        process_menu_data (PDict d) = Ok [])
  /\ (forall d entries,
        dict_lookup (py "items") d = Some (PList entries) ->
        Forall is_object entries ->
        exists items,
          process_menu_data (PDict d) = Ok items
          /\ length items = length entries
          /\ (forall (i : nat) (e : list (str * pyval)),
                entries !! i = Some (PDict e) ->
                items !! i = Some (record_of e)))
  /\ (forall e e',
        (forall k, In k item_keys ->
           dict_lookup (py k) e = dict_lookup (py k) e') ->
        record_of e = record_of e').
Proof.
  split; [reflexivity|]. split; [|split; [|apply record_of_ext]].
  - intros d Hd. unfold process_menu_data.
    destruct (truthy (PDict d)); [|reflexivity].
    simpl. rewrite Hd. reflexivity.
  - intros d entries Hd Hobj.
    destruct (process_items_objects entries Hobj) as (items & E & Hlen & Hnth).
    exists items. repeat split; try assumption.
    assert (Ht : truthy (PDict d) = true)
      by (destruct d; [discriminate|reflexivity]).
    unfold process_menu_data. rewrite Ht.
    unfold contains, subscript, dict_has. rewrite Hd. exact E.
Qed.

(** The amended C7 on a two-entry menu. *)
Lemma process_menu_data_records_witness :
  let e1 := [(py "id", PInt 1); (py "name", PStr (py "Burger")); (py "x", PInt 0)] in
  let e2 := [(py "id", PInt 2)] in
  let d := [(py "items", PList [PDict e1; PDict e2])] in
  exists items,
    process_menu_data (PDict d) = Ok items
    /\ length items = 2%nat
    /\ (forall (i : nat) (e : list (str * pyval)),
          [PDict e1; PDict e2] !! i = Some (PDict e) ->
          items !! i = Some (record_of e)).
Proof.
  intros e1 e2 d.
  apply (proj1 (proj2 (proj2 process_menu_data_records)) d
           [PDict e1; PDict e2]).
  - reflexivity.
  - repeat constructor; eexists; reflexivity.
Defined.

(** C7 as the specification words it does not hold: an entry of the list
    that is not an object has no [get], and a value that is neither absent
    nor a container cannot be asked for [items]. *)
Lemma process_menu_data_counterexample :
  process_menu_data (PDict [(py "items", PList [PInt 1])]) = Raise AttributeError
  /\ process_menu_data (PInt 5) = Raise TypeError.
Proof.
  split; reflexivity.
Qed.

(** ** Further properties of the normaliser *)

(** The dict that lines 86-95 build for a record. *)
Definition to_dict (r : MenuItem pyval) : list (str * pyval) :=
  [(py "id", id r); (py "name", name r); (py "description", description r);
   (py "price", price r); (py "originalSection", originalSection r);
   (py "image", image r); (py "originalImage", originalImage r);
   (py "sectionName", sectionName r)].

(** A value that is neither a container nor a string. *)
Definition scalar (v : pyval) : Prop :=
  match v with
  | PNone | PBool _ | PInt _ | PFloat _ => True
  | _ => False
  end.

Lemma is_object_dec (v : pyval) : {is_object v} + {~ is_object v}.
Proof.
  destruct v; try (right; intros [d Hd]; discriminate).
  left. eexists. reflexivity.
Qed.

Lemma process_item_not_object (v : pyval) :
  ~ is_object v -> process_item v = Raise AttributeError.
Proof.
  intros Hno. destruct v; try reflexivity.
  exfalso. apply Hno. eexists. reflexivity.
Qed.

Lemma process_items_not_objects (entries : list pyval) :
  ~ Forall is_object entries -> process_items entries = Raise AttributeError.
Proof.
  induction entries as [|e entries IH]; intros Hno.
  - exfalso. apply Hno. constructor.
  - simpl. destruct (is_object_dec e) as [[d ->]|He].
    + rewrite process_item_object. simpl.
      rewrite IH; [reflexivity|].
      intros Hall. apply Hno. constructor; [eexists; reflexivity|exact Hall].
    + rewrite process_item_not_object by exact He. reflexivity.
Qed.

Lemma process_menu_data_items (d : list (str * pyval)) (v : pyval) :
  dict_lookup (py "items") d = Some v ->
  process_menu_data (PDict d) = iterate v ≫= process_items.
Proof.
  intros Hd.
  assert (Ht : truthy (PDict d) = true)
    by (destruct d; [discriminate|reflexivity]).
  unfold process_menu_data. rewrite Ht.
  unfold contains, subscript, dict_has. rewrite Hd. reflexivity.
Qed.

(** X4.  All or nothing: when [items] is a list with an entry that is not an
    object, the call raises [AttributeError] and the records of the other
    entries are lost; it raises for no other list. *)
Theorem process_menu_data_all_or_nothing (d : list (str * pyval))
    (entries : list pyval) :
  dict_lookup (py "items") d = Some (PList entries) ->
  (process_menu_data (PDict d) = Raise AttributeError
   <-> ~ Forall is_object entries)
  /\ ((exists items, process_menu_data (PDict d) = Ok items)
      <-> Forall is_object entries).
Proof.
  intros Hd. rewrite (process_menu_data_items d _ Hd).
  change (iterate (PList entries) ≫= process_items)
    with (process_items entries).
  split; split.
  - intros Hraise Hall.
    destruct (process_items_objects entries Hall) as (items & E & _).
    congruence.
  - apply process_items_not_objects.
  - intros [items E] .
    destruct (List.Forall_dec is_object is_object_dec entries) as [Hall|Hno];
      [exact Hall|].
    rewrite (process_items_not_objects entries Hno) in E. discriminate.
  - intros Hall.
    destruct (process_items_objects entries Hall) as (items & E & _). eauto.
Qed.

Lemma process_menu_data_all_or_nothing_witness :
  let d := [(py "items",
             PList [PDict [(py "id", PInt 1)]; PStr (py "x");
                    PDict [(py "id", PInt 2)]])] in
  process_menu_data (PDict d) = Raise AttributeError.
Proof.
  intros d.
  apply (proj1 (process_menu_data_all_or_nothing d _ eq_refl)).
  intros Hall. inversion_clear Hall as [|? ? _ Hrest].
  inversion_clear Hrest as [|? ? [e He] _]. discriminate.
Defined.

(** X5.  When [items] is not a list: a number, a truth value or null is not
    iterable and the call raises [TypeError]; a string or an object is
    iterated over its characters or keys, which have no [get], so the call
    raises [AttributeError] unless the string or object is empty, in which
    case the result is the empty sequence. *)
Theorem process_menu_data_items_not_list (d : list (str * pyval)) (v : pyval) :
  dict_lookup (py "items") d = Some v ->
  (scalar v -> process_menu_data (PDict d) = Raise TypeError)
  /\ (forall s, v = PStr s ->
        process_menu_data (PDict d)
        = match s with [] => Ok [] | _ => Raise AttributeError end)
  /\ (forall o, v = PDict o ->
        process_menu_data (PDict d)
        = match o with [] => Ok [] | _ => Raise AttributeError end).
Proof.
  intros Hd. rewrite (process_menu_data_items d _ Hd). repeat split.
  - destruct v; simpl; intros Hs; (reflexivity || destruct Hs).
  - intros s ->. destruct s; reflexivity.
  - intros o ->. destruct o as [|[k x] o]; reflexivity.
Qed.

Lemma process_menu_data_items_not_list_witness :
  process_menu_data (PDict [(py "items", PNone)]) = Raise TypeError.
Proof.
  apply (proj1 (process_menu_data_items_not_list
                  [(py "items", PNone)] PNone eq_refl)).
  exact I.
Defined.

Lemma record_of_to_dict (r : MenuItem pyval) : record_of (to_dict r) = r.
Proof. destruct r. reflexivity. Qed.

Lemma process_items_to_dict (rs : list (MenuItem pyval)) :
  process_items (map (fun r => PDict (to_dict r)) rs) = Ok rs.
Proof.
  induction rs as [|r rs IH]; [reflexivity|].
  cbn [map process_items].
  rewrite process_item_object, record_of_to_dict, IH. reflexivity.
Qed.

(** X6.  Normalising is idempotent: a menu whose entries are the dicts of
    normalised records gives these records back, whatever else the menu
    object holds. *)
Theorem process_menu_data_idempotent (d : list (str * pyval))
    (rs : list (MenuItem pyval)) :
  dict_lookup (py "items") d
  = Some (PList (map (fun r => PDict (to_dict r)) rs)) ->
  process_menu_data (PDict d) = Ok rs.
Proof.
  intros Hd. rewrite (process_menu_data_items d _ Hd).
  apply process_items_to_dict.
Qed.

Lemma process_menu_data_idempotent_witness :
  let r := mkMenuItem (PInt 1) (PStr (py "Burger")) PNone (PInt 5) PNone
             PNone (PStr (py "http://x/a.jpg")) PNone in
  process_menu_data
    (PDict [(py "total", PInt 1); (py "items", PList [PDict (to_dict r)])])
  = Ok [r].
Proof.
  intros r.
  apply (process_menu_data_idempotent _ [r]). reflexivity.
Defined.

End Normalizer.

(* ===================================================================== *)
(** * Data frames, as far as [merge_data] uses them                       *)
(* ===================================================================== *)

Module Frame.

Section frame.

Context {V : Type} `{EqDecision V}.

(** The missing value ([NaN], [None]). *)
Variable null : V.

(** A table: its column labels, in order, and its rows, each with one cell
    per column.  The row index is the position of the row.

    [V] is the type of a cell as the table holds it.  The library holds
    each column under a type it infers from the values: a column of
    strings, with or without nulls, holds them as given, and so does a
    column of integers that fit in 64 bits; a column that mixes integers
    with nulls or with floats is held as binary64, which rounds an integer
    above [2^53].  The frames below hold every cell as given: they are the
    frames of the library as long as no column is converted.  The
    statements on Python values, in [Merger], are made where that is so. *)
Record DataFrame := mkFrame {
  columns : list string;
  rows : list (list V)
}.

Definition cell (i : nat) (row : list V) : V := nth i row null.

Definition nulls (n : nat) : list V := repeat null n.

(** The position of a label among the columns. *)
Fixpoint index_of (c : string) (cols : list string) : option nat :=
  match cols with
  | [] => None
  | c' :: cols' => if String.eqb c' c then Some O else S <$> index_of c cols'
  end.

(** [c in df.columns]. *)
Definition has_column (c : string) (df : DataFrame) : bool :=
  match index_of c (columns df) with Some _ => true | None => false end.

(** The cell of [row] under the label [c]. *)
Definition at_column (df : DataFrame) (c : string) (row : list V) : V :=
  match index_of c (columns df) with
  | Some i => cell i row
  | None => null
  end.

(** [pd.DataFrame(items)] for a list of records that all have the eight
    keys: no record, no column. *)
Definition item_columns : list string :=
  ["id"; "name"; "description"; "price"; "originalSection"; "image";
   "originalImage"; "sectionName"]%string.

Definition item_cells (m : MenuItem V) : list V :=
  [id m; name m; description m; price m; originalSection m; image m;
   originalImage m; sectionName m].

Definition of_items (items : list (MenuItem V)) : DataFrame :=
  match items with
  | [] => mkFrame [] []
  | _ => mkFrame item_columns (map item_cells items)
  end.

(** [df.rename(columns=mapping)]: labels outside the mapping stay. *)
Fixpoint renamed (mapping : list (string * string)) (c : string) : string :=
  match mapping with
  | [] => c
  | (old, new) :: mapping' =>
      if String.eqb old c then new else renamed mapping' c
  end.

Definition rename (mapping : list (string * string)) (df : DataFrame)
  : DataFrame :=
  mkFrame (map (renamed mapping) (columns df)) (rows df).

(** The positions of several labels; [None] when one is missing. *)
Fixpoint indices_of (cs : list string) (cols : list string)
  : option (list nat) :=
  match cs with
  | [] => Some []
  | c :: cs' =>
      i ← index_of c cols; js ← indices_of cs' cols; Some (i :: js)
  end.

Definition project (idxs : list nat) (row : list V) : list V :=
  map (fun i => cell i row) idxs.

(** [df[[c1, ..., cn]]]: [KeyError] when a label is missing. *)
Definition select (cs : list string) (df : DataFrame) : result DataFrame :=
  match indices_of cs (columns df) with
  | Some idxs => Ok (mkFrame cs (map (project idxs) (rows df)))
  | None => Raise KeyError
  end.

(** [row] without its cell [i]. *)
Definition without (i : nat) (row : list V) : list V :=
  firstn i row ++ skipn (S i) row.

(** [pd.merge(left, right, on=key, how='outer')] for frames that share no
    other label.  A left row is paired with every right row of the same
    key, or with nulls when there is none; a right row whose key no left
    row has comes with nulls on the left.  Null keys match each other.

    The library compares two keys as their columns hold them, and it raises
    [ValueError] when one key column holds numbers and the other strings.
    Here two keys match when they are equal, and the merge always returns:
    this is the merge of the library when the two key columns hold strings
    only, or integers that fit in 64 bits only, which is what the
    statements on Python values in [Merger] assume.

    The library sorts the rows of an outer merge by key (some versions keep
    another order); here the rows of left rows come first, in the order of
    [left], then the right-only rows in the order of [right].  No statement
    below depends on the order of the rows of a merge. *)
Definition merge_outer (key : string) (left right : DataFrame)
  : result DataFrame :=
  match index_of key (columns left), index_of key (columns right) with
  | Some kl, Some kr =>
      let matched (l : list V) :=
        match List.filter (fun r => bool_decide (cell kr r = cell kl l))
                (rows right) with
        | [] => [l ++ nulls (length (columns right) - 1)]
        | rs => map (fun r => l ++ without kr r) rs
        end in
      let left_keys := map (cell kl) (rows left) in
      let right_only :=
        List.filter (fun r => negb (bool_decide (cell kr r ∈ left_keys)))
          (rows right) in
      let lonely (r : list V) :=
        (nulls kl ++ cell kr r :: nulls (length (columns left) - S kl))
        ++ without kr r in
      Ok (mkFrame (columns left ++ firstn kr (columns right)
                   ++ skipn (S kr) (columns right))
            (flat_map matched (rows left) ++ map lonely right_only))
  | _, _ => Raise KeyError
  end.

(** [pd.concat([left, right], axis=1)]: the rows are aligned on their
    position; the shorter frame is filled with nulls. *)
Definition concat_columns (left right : DataFrame) : DataFrame :=
  let n := Nat.max (length (rows left)) (length (rows right)) in
  mkFrame (columns left ++ columns right)
    (map (fun i =>
            nth i (rows left) (nulls (length (columns left)))
            ++ nth i (rows right) (nulls (length (columns right))))
       (seq 0 n)).

End frame.

End Frame.

(* ===================================================================== *)
(** * Locale merger ([merge_data])                                        *)
(* ===================================================================== *)

Module Merger.

Import Frame.

Section merger.

Context {V : Type} `{EqDecision V}.
Variable null : V.

Definition final_columns : list string :=
  ["id"; "section_en"; "section_ar"; "name_en"; "name_ar";
   "description_en"; "description_ar"; "price_en"; "originalImage"]%string.

Definition merge_data (english_items arabic_items : list (MenuItem V))
  : result (@DataFrame V) :=
  let df_en := of_items english_items in
  let df_ar := of_items arabic_items in
  let df_en :=
    rename [("name", "name_en"); ("description", "description_en");
            ("originalSection", "section_en"); ("price", "price_en")]%string
      df_en in
  let df_ar :=
    rename [("name", "name_ar"); ("description", "description_ar");
            ("originalSection", "section_ar"); ("price", "price_ar")]%string
      df_ar in
  merged_df ←
    (if has_column "id" df_en && has_column "id" df_ar then
       right ← select null
                 ["id"; "name_ar"; "description_ar"; "section_ar"]%string df_ar;
       merge_outer null "id" df_en right
     else
       right ← select null
                 ["name_ar"; "description_ar"; "section_ar"]%string df_ar;
       Ok (concat_columns null df_en right));
  let final_columns :=
    List.filter (fun c => has_column c merged_df) final_columns in
  select null final_columns merged_df.

(** ** What the specification talks about: the join as a merge of the two
    sequences over the union of their identifiers *)

(** The row of an item found in both locales, of one found in the primary
    locale only, and of one found in the secondary locale only, under
    [final_columns]. *)
Definition row_both (m a : MenuItem V) : list V :=
  [id m; originalSection m; originalSection a; name m; name a;
   description m; description a; price m; originalImage m].

Definition row_left (m : MenuItem V) : list V :=
  [id m; originalSection m; null; name m; null; description m; null;
   price m; originalImage m].

Definition row_right (a : MenuItem V) : list V :=
  [id a; null; originalSection a; null; name a; null; description a; null;
   null].

(** The secondary items that carry the identifier of [m]. *)
Definition partners (m : MenuItem V) (arabic_items : list (MenuItem V))
  : list (MenuItem V) :=
  List.filter (fun a => bool_decide (id a = id m)) arabic_items.

Definition rows_of (arabic_items : list (MenuItem V)) (m : MenuItem V)
  : list (list V) :=
  match partners m arabic_items with
  | [] => [row_left m]
  | ps => map (row_both m) ps
  end.

Definition unmatched (english_items arabic_items : list (MenuItem V))
  : list (MenuItem V) :=
  List.filter (fun a => negb (bool_decide (id a ∈ map id english_items)))
    arabic_items.

Definition joined_rows (english_items arabic_items : list (MenuItem V))
  : list (list V) :=
  flat_map (rows_of arabic_items) english_items
  ++ map row_right (unmatched english_items arabic_items).

(** How many items of a sequence carry the identifier [k]. *)
Definition occurrences (k : V) (items : list (MenuItem V)) : nat :=
  length (List.filter (fun m => bool_decide (id m = k)) items).

(** ** The frames that [merge_data] goes through, for two sequences that
    are not empty *)

Definition ar_cells (a : MenuItem V) : list V :=
  [id a; name a; description a; originalSection a].

Lemma filter_map_swap {A B : Type} (f : A -> B) (P : B -> bool) (l : list A) :
  List.filter P (map f l) = map f (List.filter (fun x => P (f x)) l).
Proof.
  induction l as [|x l IH]; simpl; [reflexivity|].
  destruct (P (f x)); simpl; rewrite IH; reflexivity.
Qed.

Lemma select_ar (rs : list (list V)) :
  select null ["id"; "name_ar"; "description_ar"; "section_ar"]%string
    (rename [("name", "name_ar"); ("description", "description_ar");
             ("originalSection", "section_ar"); ("price", "price_ar")]%string
       (mkFrame item_columns rs))
  = Ok (mkFrame ["id"; "name_ar"; "description_ar"; "section_ar"]%string
          (map (project null [0; 1; 2; 4]%nat) rs)).
Proof. reflexivity. Qed.

Definition merged_columns : list string :=
  ["id"; "name_en"; "description_en"; "price_en"; "section_en"; "image";
   "originalImage"; "sectionName"; "name_ar"; "description_ar";
   "section_ar"]%string.

Lemma merge_outer_id (ls rs : list (list V)) :
  merge_outer null "id"
    (rename [("name", "name_en"); ("description", "description_en");
             ("originalSection", "section_en"); ("price", "price_en")]%string
       (mkFrame item_columns ls))
    (mkFrame ["id"; "name_ar"; "description_ar"; "section_ar"]%string rs)
  = Ok (mkFrame merged_columns
          (flat_map
             (fun l =>
                match List.filter
                        (fun r => bool_decide (cell null 0 r = cell null 0 l)) rs with
                | [] => [l ++ nulls null 3]
                | ps => map (fun r => l ++ without 0 r) ps
                end) ls
           ++ map (fun r => (cell null 0 r :: nulls null 7) ++ without 0 r)
                (List.filter
                   (fun r => negb (bool_decide
                                     (cell null 0 r ∈ map (cell null 0) ls)))
                   rs))).
Proof. reflexivity. Qed.

Lemma select_final (rs : list (list V)) :
  select null
    (List.filter (fun c => has_column c (mkFrame merged_columns rs))
       final_columns)
    (mkFrame merged_columns rs)
  = Ok (mkFrame final_columns
          (map (project null [0; 4; 10; 1; 8; 2; 9; 3; 6]%nat) rs)).
Proof. reflexivity. Qed.

Lemma of_items_cons (items : list (MenuItem V)) :
  items <> [] -> of_items items = mkFrame item_columns (map item_cells items).
Proof. destruct items; [congruence|reflexivity]. Qed.

Lemma bind_Ok {A B : Type} (x : A) (f : A -> result B) : Ok x ≫= f = f x.
Proof. reflexivity. Qed.

Lemma rows_of_cells (ar : list (MenuItem V)) (m : MenuItem V) :
  map (project null [0; 4; 10; 1; 8; 2; 9; 3; 6]%nat)
    match List.filter
            (fun r => bool_decide (cell null 0 r = cell null 0 (item_cells m)))
            (map ar_cells ar) with
    | [] => [item_cells m ++ nulls null 3]
    | ps => map (fun r => item_cells m ++ without 0 r) ps
    end
  = rows_of ar m.
Proof.
  rewrite filter_map_swap. unfold rows_of.
  change (List.filter _ ar) with (partners m ar).
  destruct (partners m ar) as [|p ps]; [reflexivity|].
  change (map ar_cells (p :: ps)) with (ar_cells p :: map ar_cells ps).
  cbv iota. rewrite <- (map_cons ar_cells), !map_map.
  apply map_ext. reflexivity.
Qed.

(** On two sequences that are not empty, [merge_data] returns the joined
    rows under the final columns. *)
Lemma merge_data_joined (en ar : list (MenuItem V)) :
  en <> [] -> ar <> [] ->
  merge_data en ar = Ok (mkFrame final_columns (joined_rows en ar)).
Proof.
  intros Hen Har. unfold merge_data.
  rewrite (of_items_cons en Hen), (of_items_cons ar Har).
  cbv zeta.
  match goal with |- context [if ?c then _ else _] => change c with true end.
  cbv iota.
  rewrite select_ar, bind_Ok, merge_outer_id, bind_Ok, select_final.
  do 2 f_equal.
  replace (map (project null [0; 1; 2; 4]%nat) (map item_cells ar))
    with (map ar_cells ar)
    by (rewrite map_map; apply map_ext; reflexivity).
  rewrite map_app. unfold joined_rows. f_equal.
  - clear Hen. induction en as [|m en IH]; [reflexivity|].
    cbn [map flat_map]. rewrite map_app. f_equal; [|exact IH].
    apply rows_of_cells.
  - replace (map (cell null 0) (map item_cells en)) with (map id en)
      by (rewrite map_map; apply map_ext; reflexivity).
    rewrite filter_map_swap, !map_map. apply map_ext. reflexivity.
Qed.

(** ** The rows of the join *)

Lemma partners_In (m a : MenuItem V) (ar : list (MenuItem V)) :
  In a (partners m ar) <-> In a ar /\ id a = id m.
Proof.
  unfold partners. rewrite filter_In, bool_decide_eq_true. reflexivity.
Qed.

Lemma unmatched_In (en ar : list (MenuItem V)) (a : MenuItem V) :
  In a (unmatched en ar) <-> In a ar /\ id a ∉ map id en.
Proof.
  unfold unmatched.
  rewrite filter_In, negb_true_iff, bool_decide_eq_false. reflexivity.
Qed.

Lemma elem_of_ids (k : V) (items : list (MenuItem V)) :
  k ∈ map id items <-> exists m, In m items /\ id m = k.
Proof.
  rewrite list_elem_of_In, in_map_iff. split; intros (m & A & B); eauto.
Qed.

Lemma partners_nil (m : MenuItem V) (ar : list (MenuItem V)) :
  partners m ar = [] <-> id m ∉ map id ar.
Proof.
  rewrite elem_of_ids. split.
  - intros E (a & Ha & Hid).
    assert (Hin : In a (partners m ar)) by (apply partners_In; auto).
    rewrite E in Hin. destruct Hin.
  - intros Hno. destruct (partners m ar) as [|a ps] eqn:E; [reflexivity|].
    assert (Hin : In a (partners m ar)) by (rewrite E; left; reflexivity).
    apply partners_In in Hin. exfalso. apply Hno. exists a. exact Hin.
Qed.

Lemma rows_of_In (ar : list (MenuItem V)) (m : MenuItem V) (row : list V) :
  In row (rows_of ar m)
  <-> ((id m ∉ map id ar) /\ row = row_left m)
      \/ (exists a, In a ar /\ id a = id m /\ row = row_both m a).
Proof.
  unfold rows_of. rewrite <- partners_nil.
  destruct (partners m ar) as [|p ps] eqn:E.
  - simpl. split.
    + intros [<-|[]]. left. auto.
    + intros [[_ ->]|(a & Ha & Hid & _)]; [left; reflexivity|].
      assert (Hin : In a (partners m ar)) by (apply partners_In; auto).
      rewrite E in Hin. destruct Hin.
  - rewrite in_map_iff. split.
    + intros (a & <- & Ha). right. exists a.
      rewrite <- E in Ha. apply partners_In in Ha. tauto.
    + intros [[? _]|(a & Ha & Hid & ->)]; [discriminate|].
      exists a. split; [reflexivity|]. rewrite <- E. apply partners_In. auto.
Qed.

(** A row of the join is the row of a matched pair, of a primary item
    without a partner, or of a secondary item without a partner. *)
Lemma joined_rows_In (en ar : list (MenuItem V)) (row : list V) :
  In row (joined_rows en ar)
  <-> (exists m a, In m en /\ In a ar /\ id a = id m /\ row = row_both m a)
      \/ (exists m, In m en /\ (id m ∉ map id ar) /\ row = row_left m)
      \/ (exists a, In a ar /\ (id a ∉ map id en) /\ row = row_right a).
Proof.
  unfold joined_rows. rewrite in_app_iff, in_flat_map, in_map_iff. split.
  - intros [(m & Hm & Hrow)|(a & <- & Ha)].
    + apply rows_of_In in Hrow as [[Hno ->]|(a & Ha & Hid & ->)].
      * right. left. eauto.
      * left. eauto 6.
    + apply unmatched_In in Ha. right. right. exists a. tauto.
  - intros [(m & a & Hm & Ha & Hid & ->)|[(m & Hm & Hno & ->)|(a & Ha & Hno & ->)]].
    + left. exists m. split; [assumption|]. apply rows_of_In. right. eauto.
    + left. exists m. split; [assumption|]. apply rows_of_In. left. auto.
    + right. exists a. split; [reflexivity|]. apply unmatched_In. auto.
Qed.

(** ** Identifiers that are unique on each side *)

Lemma partners_unique (m : MenuItem V) (ar : list (MenuItem V)) :
  NoDup (map id ar) -> (length (partners m ar) <= 1)%nat.
Proof.
  induction ar as [|a ar IH]; simpl; [lia|].
  rewrite NoDup_cons. intros [Hnotin Hnd].
  destruct (bool_decide_reflect (id a = id m)) as [E|_]; [|auto].
  simpl. rewrite E in Hnotin. apply partners_nil in Hnotin.
  fold (partners m ar). rewrite Hnotin. simpl. lia.
Qed.

Lemma rows_of_single (ar : list (MenuItem V)) (m : MenuItem V) :
  NoDup (map id ar) ->
  exists row, rows_of ar m = [row] /\ cell null 0 row = id m.
Proof.
  intros Hnd. pose proof (partners_unique m ar Hnd) as Hlen.
  unfold rows_of. destruct (partners m ar) as [|p [|p' ps]].
  - exists (row_left m). split; reflexivity.
  - exists (row_both m p). split; reflexivity.
  - simpl in Hlen. lia.
Qed.

Lemma left_ids (en ar : list (MenuItem V)) :
  NoDup (map id ar) ->
  map (cell null 0) (flat_map (rows_of ar) en) = map id en.
Proof.
  intros Hnd. induction en as [|m en IH]; [reflexivity|].
  destruct (rows_of_single ar m Hnd) as (row & E & Hid).
  simpl. rewrite E. simpl. rewrite Hid, IH. reflexivity.
Qed.

Lemma joined_ids (en ar : list (MenuItem V)) :
  NoDup (map id ar) ->
  map (cell null 0) (joined_rows en ar)
  = map id en ++ map id (unmatched en ar).
Proof.
  intros Hnd. unfold joined_rows.
  rewrite map_app, left_ids by assumption. f_equal.
  rewrite map_map. apply map_ext. reflexivity.
Qed.

Lemma NoDup_ids_filter (P : MenuItem V -> bool) (ar : list (MenuItem V)) :
  NoDup (map id ar) -> NoDup (map id (List.filter P ar)).
Proof.
  induction ar as [|a ar IH]; simpl; [auto|].
  rewrite NoDup_cons. intros [Hnotin Hnd].
  destruct (P a); [|auto].
  simpl. apply NoDup_cons. split; [|auto].
  rewrite elem_of_ids in Hnotin |- *. intros (b & Hb & Hid).
  apply Hnotin. exists b. apply filter_In in Hb. tauto.
Qed.

Lemma unmatched_ids (en ar : list (MenuItem V)) (k : V) :
  k ∈ map id (unmatched en ar) <-> k ∈ map id ar /\ k ∉ map id en.
Proof.
  rewrite (elem_of_ids k (unmatched en ar)), (elem_of_ids k ar). split.
  - intros (a & Ha & <-). apply unmatched_In in Ha. split; [|tauto].
    exists a. tauto.
  - intros [(a & Ha & <-) Hno]. exists a. split; [|reflexivity].
    apply unmatched_In. auto.
Qed.

Lemma NoDup_joined_ids (en ar : list (MenuItem V)) :
  NoDup (map id en) -> NoDup (map id ar) ->
  NoDup (map id en ++ map id (unmatched en ar)).
Proof.
  intros Hen Har. apply NoDup_app. repeat split.
  - exact Hen.
  - intros k Hk Hk'. apply unmatched_ids in Hk'. tauto.
  - apply NoDup_ids_filter, Har.
Qed.

(** With no identifier twice on either side, the join has one row per
    identifier of the two sequences. *)
Lemma joined_rows_length (en ar : list (MenuItem V)) :
  NoDup (map id en) -> NoDup (map id ar) ->
  length (joined_rows en ar)
  = length (remove_dups (map id en ++ map id ar)).
Proof.
  intros Hen Har.
  rewrite <- (length_map (cell null 0)), joined_ids by assumption.
  apply Permutation_length, NoDup_Permutation.
  - apply NoDup_joined_ids; assumption.
  - apply NoDup_remove_dups.
  - intros k. rewrite elem_of_remove_dups, !elem_of_app, unmatched_ids.
    destruct (decide (k ∈ map id en)); tauto.
Qed.

(** ** The rows of one identifier *)

Lemma rows_of_length (ar : list (MenuItem V)) (m : MenuItem V) :
  length (rows_of ar m) = Nat.max 1 (length (partners m ar)).
Proof.
  unfold rows_of. destruct (partners m ar) as [|p ps]; [reflexivity|].
  rewrite length_map. simpl. reflexivity.
Qed.

Lemma occurrences_cons (k : V) (m : MenuItem V) (items : list (MenuItem V)) :
  occurrences k (m :: items)
  = ((if bool_decide (id m = k) then 1 else 0) + occurrences k items)%nat.
Proof.
  unfold occurrences. simpl. destruct (bool_decide (id m = k)); reflexivity.
Qed.

Lemma occurrences_0 (k : V) (items : list (MenuItem V)) :
  occurrences k items = 0%nat <-> k ∉ map id items.
Proof.
  induction items as [|m items IH].
  - split; [intros _; apply not_elem_of_nil|reflexivity].
  - rewrite occurrences_cons. cbn [map]. rewrite not_elem_of_cons.
    destruct (bool_decide_reflect (id m = k)) as [E|E].
    + split; [intros Hz; discriminate|]. intros [Hne _]. congruence.
    + simpl. rewrite IH. split; [intros Hn; split; [congruence|exact Hn]|tauto].
Qed.

Lemma rows_of_count (ar : list (MenuItem V)) (m : MenuItem V) (k : V) :
  length (List.filter (fun row => bool_decide (cell null 0 row = k))
            (rows_of ar m))
  = if bool_decide (id m = k) then Nat.max 1 (occurrences k ar) else 0%nat.
Proof.
  assert (Hall : forall row, In row (rows_of ar m) -> cell null 0 row = id m).
  { intros row Hrow. apply rows_of_In in Hrow.
    destruct Hrow as [(_ & ->)|(a & _ & _ & ->)]; reflexivity. }
  destruct (bool_decide_reflect (id m = k)) as [E|E].
  - rewrite forallb_filter_id.
    + rewrite rows_of_length. unfold occurrences, partners.
      rewrite E. reflexivity.
    + apply forallb_forall. intros row Hrow.
      apply bool_decide_eq_true. rewrite (Hall row Hrow). exact E.
  - replace (List.filter (fun row => bool_decide (cell null 0 row = k))
               (rows_of ar m)) with (@nil (list V)); [reflexivity|].
    symmetry. induction (rows_of ar m) as [|row l IH]; [reflexivity|].
    simpl. rewrite (Hall row (or_introl eq_refl)).
    destruct (bool_decide_reflect (id m = k)); [contradiction|].
    apply IH. intros r Hr. apply Hall. right. exact Hr.
Qed.

Lemma unmatched_count (en ar : list (MenuItem V)) (k : V) :
  occurrences k (unmatched en ar)
  = if bool_decide (k ∈ map id en) then 0%nat else occurrences k ar.
Proof.
  unfold occurrences, unmatched.
  induction ar as [|a ar IH]; simpl.
  - destruct (bool_decide (k ∈ map id en)); reflexivity.
  - destruct (bool_decide_reflect (id a ∈ map id en)) as [Hin|Hout]; simpl.
    + rewrite IH.
      destruct (bool_decide_reflect (k ∈ map id en)) as [Hk|Hk];
        [reflexivity|].
      destruct (bool_decide_reflect (id a = k)) as [E|E];
        [exfalso; apply Hk; rewrite <- E; exact Hin|reflexivity].
    + destruct (bool_decide_reflect (id a = k)) as [E|E]; simpl; rewrite IH.
      * destruct (bool_decide_reflect (k ∈ map id en)) as [Hk|Hk];
          [exfalso; apply Hout; rewrite E; exact Hk|reflexivity].
      * reflexivity.
Qed.

(** The number of rows of the join that carry the identifier [k]. *)
Lemma joined_rows_count (en ar : list (MenuItem V)) (k : V) :
  length (List.filter (fun row => bool_decide (cell null 0 row = k))
            (joined_rows en ar))
  = match occurrences k en, occurrences k ar with
    | O, a => a
    | e, O => e
    | e, a => (e * a)%nat
    end.
Proof.
  unfold joined_rows. rewrite List.filter_app, length_app.
  assert (Hleft :
    length (List.filter (fun row => bool_decide (cell null 0 row = k))
              (flat_map (rows_of ar) en))
    = (occurrences k en * Nat.max 1 (occurrences k ar))%nat).
  { induction en as [|m en IH]; [reflexivity|].
    cbn [flat_map]. rewrite List.filter_app, length_app, IH, rows_of_count.
    rewrite occurrences_cons.
    destruct (bool_decide (id m = k)); lia. }
  assert (Hright :
    length (List.filter (fun row => bool_decide (cell null 0 row = k))
              (map row_right (unmatched en ar)))
    = if bool_decide (k ∈ map id en) then 0%nat else occurrences k ar).
  { rewrite <- unmatched_count. unfold occurrences.
    rewrite filter_map_swap, length_map. reflexivity. }
  rewrite Hleft, Hright.
  destruct (bool_decide_reflect (k ∈ map id en)) as [Hk|Hk].
  - destruct (occurrences k en) as [|e] eqn:He;
      [apply occurrences_0 in He; contradiction|].
    destruct (occurrences k ar) as [|a]; simpl; lia.
  - apply occurrences_0 in Hk. rewrite Hk. simpl. reflexivity.
Qed.

(** ** The claim about an empty secondary sequence *)

(** C4 fails on the code: with no secondary item, the secondary frame has
    no column at all, the positional branch asks it for the three [_ar]
    columns, and [merge_data] raises [KeyError], whatever the primary
    sequence is. *)
Theorem merge_data_empty_secondary_raises (en : list (MenuItem V)) :
  merge_data en [] = Raise KeyError.
Proof.
  destruct en; reflexivity.
Qed.

(** ** Further properties of the merger *)

Lemma map_nth_seq {A : Type} (l : list A) (d : A) :
  map (fun i => nth i l d) (seq 0 (length l)) = l.
Proof.
  induction l as [|x l IH]; [reflexivity|].
  simpl. f_equal. rewrite <- seq_shift, map_map. exact IH.
Qed.

(** Without primary items the positional branch is taken: the result has
    the three secondary columns only. *)
Lemma merge_data_fallback_rows (ar : list (MenuItem V)) :
  ar <> [] ->
  merge_data [] ar
  = Ok (mkFrame ["section_ar"; "name_ar"; "description_ar"]%string
          (map (fun a => [originalSection a; name a; description a]) ar)).
Proof.
  intros Har. unfold merge_data.
  rewrite (of_items_cons ar Har).
  change (of_items []) with (mkFrame (V:=V) [] []).
  cbv zeta.
  match goal with |- context [if ?c then _ else _] => change c with false end.
  cbv iota.
  change (select null ["name_ar"; "description_ar"; "section_ar"]%string _)
    with (Ok (mkFrame ["name_ar"; "description_ar"; "section_ar"]%string
                (map (project null [1; 2; 4]%nat) (map item_cells ar)))).
  rewrite bind_Ok, bind_Ok.
  unfold concat_columns. cbn [rows columns length Nat.max app].
  set (R := map (project null [1; 2; 4]%nat) (map item_cells ar)).
  change (select null _ _)
    with (Ok (mkFrame ["section_ar"; "name_ar"; "description_ar"]%string
                (map (project null [2; 0; 1]%nat)
                   (map (fun i => nth i [] (nulls null 0)
                                  ++ nth i R (nulls null 3))
                      (seq 0 (length R)))))).
  do 2 f_equal.
  rewrite (map_ext (fun i => nth i [] (nulls null 0) ++ nth i R (nulls null 3))
             (fun i => nth i R (nulls null 3)))
    by (intros [|i]; reflexivity).
  rewrite map_nth_seq. unfold R. rewrite !map_map.
  apply map_ext. reflexivity.
Qed.

(** X7.  With no primary item and some secondary items, the table has no [id]
    column: it has the three secondary columns and one row per secondary
    item, in the order of the items. *)
Theorem merge_data_no_primary (ar : list (MenuItem V)) :
  ar <> [] ->
  exists df,
    merge_data [] ar = Ok df
    /\ columns df = ["section_ar"; "name_ar"; "description_ar"]%string
    /\ has_column "id" df = false
    /\ length (rows df) = length ar
    /\ forall (i : nat) (a : MenuItem V),
         ar !! i = Some a ->
         rows df !! i = Some [originalSection a; name a; description a].
Proof.
  intros Har. eexists. split; [apply merge_data_fallback_rows, Har|].
  cbn [columns rows]. repeat split.
  - apply length_map.
  - intros i a Hi.
    change (map ?f ar) with (f <$> ar).
    rewrite list_lookup_fmap, Hi. reflexivity.
Qed.

(** The fields of an item that reach the table. *)
Definition same_en (m m' : MenuItem V) : Prop :=
  id m = id m' /\ name m = name m' /\ description m = description m'
  /\ price m = price m' /\ originalSection m = originalSection m'
  /\ originalImage m = originalImage m'.

Definition same_ar (a a' : MenuItem V) : Prop :=
  id a = id a' /\ name a = name a' /\ description a = description a'
  /\ originalSection a = originalSection a'.

Lemma Forall2_filter {A : Type} (R : A -> A -> Prop) (P Q : A -> bool)
    (l l' : list A) :
  (forall x y, R x y -> P x = Q y) ->
  Forall2 R l l' -> Forall2 R (List.filter P l) (List.filter Q l').
Proof.
  intros HPQ. induction 1 as [|x y l l' Hxy _ IH]; simpl; [constructor|].
  rewrite (HPQ x y Hxy). destruct (Q y); [constructor; assumption|exact IH].
Qed.

Lemma Forall2_map {A B : Type} (R : A -> A -> Prop) (f g : A -> B)
    (l l' : list A) :
  (forall x y, R x y -> f x = g y) ->
  Forall2 R l l' -> map f l = map g l'.
Proof.
  intros Hfg. induction 1 as [|x y l l' Hxy _ IH]; simpl; [reflexivity|].
  rewrite (Hfg x y Hxy), IH. reflexivity.
Qed.

Lemma joined_rows_same (en en' ar ar' : list (MenuItem V)) :
  Forall2 same_en en en' -> Forall2 same_ar ar ar' ->
  joined_rows en ar = joined_rows en' ar'.
Proof.
  intros Hen Har. unfold joined_rows. f_equal.
  - induction Hen as [|m m' en en' Hm _ IH]; [reflexivity|].
    cbn [flat_map]. rewrite IH. f_equal.
    destruct Hm as (Hid & Hn & Hd & Hp & Hs & Hi).
    assert (Hps : Forall2 same_ar (partners m ar) (partners m' ar')).
    { apply Forall2_filter; [|exact Har].
      intros a a' (Ha & _). rewrite Ha, Hid. reflexivity. }
    unfold rows_of.
    destruct Hps as [|p p' ps ps' Hp0 Hps].
    + unfold row_left. congruence.
    + apply (Forall2_map same_ar); [|constructor; assumption].
      intros a a' (Ha & Han & Had & Has). unfold row_both. congruence.
  - assert (Hids : map id en = map id en').
    { apply (Forall2_map same_en); [|exact Hen]. intros m m' Hm. apply Hm. }
    apply (Forall2_map same_ar).
    + intros a a' (Ha & Han & Had & Has). unfold row_right. congruence.
    + apply Forall2_filter; [|exact Har].
      intros a a' (Ha & _). rewrite Ha, Hids. reflexivity.
Qed.

(** X9.  The table depends on the primary items through their identifier,
    name, description, price, section and full-size image only, and on the
    secondary items through their identifier, name, description and section
    only: the secondary price and images and both thumbnails and section
    labels are discarded. *)
Theorem merge_data_discards (en en' ar ar' : list (MenuItem V)) :
  Forall2 same_en en en' -> Forall2 same_ar ar ar' ->
  merge_data en ar = merge_data en' ar'.
Proof.
  intros Hen Har.
  destruct Har as [|a a' ar ar' Ha Har].
  - destruct en, en'; reflexivity.
  - destruct Hen as [|m m' en en' Hm Hen].
    + rewrite !merge_data_fallback_rows by discriminate. do 2 f_equal.
      apply (Forall2_map same_ar); [|constructor; assumption].
      intros x y (Hx & Hxn & Hxd & Hxs). congruence.
    + rewrite !merge_data_joined by discriminate. do 2 f_equal.
      apply joined_rows_same; constructor; assumption.
Qed.

End merger.

(** ** Python values in the frames: the claims about the join *)

Definition is_str (v : pyval) : Prop := exists s, v = PStr s.

Definition is_int64 (v : pyval) : Prop :=
  exists z, v = PInt z /\ - 2 ^ 63 <= z < 2 ^ 63.

(** The identifiers of both sequences are held and compared as given: all
    of them are strings, or all of them are integers that fit in 64 bits
    (the two cases in which both [id] columns have one type, no value of
    which is converted). *)
Definition exact_ids (en ar : list (MenuItem pyval)) : Prop :=
  Forall (fun m => is_str (id m)) (en ++ ar)
  \/ Forall (fun m => is_int64 (id m)) (en ++ ar).

(** C1 (amended).  For two sequences that are not empty (so that both
    frames have an [id] column), whose identifiers are all strings or all
    integers that fit in 64 bits, and in each of which no identifier occurs
    twice, [merge_data] returns a table under the final columns with one
    row per identifier of the union: the number of rows is the number of
    distinct identifiers of the two sequences, the [id] column has no
    duplicate and holds exactly the identifiers of the two sequences, a row
    whose identifier is missing on one side is null in the fields of that
    side, and every item is in the row of its identifier, with every field
    of it that is a string. *)
Theorem merge_data_outer_join (en ar : list (MenuItem pyval)) :
  en <> [] -> ar <> [] ->
  exact_ids en ar ->
  NoDup (map id en) -> NoDup (map id ar) ->
  exists df,
    merge_data PNone en ar = Ok df
    /\ columns df = final_columns
    /\ length (rows df) = length (remove_dups (map id en ++ map id ar))
    /\ NoDup (map (at_column PNone df "id") (rows df))
    /\ (forall k, k ∈ map (at_column PNone df "id") (rows df)
                  <-> k ∈ map id en \/ k ∈ map id ar)
    /\ (forall row, row ∈ rows df ->
          ((at_column PNone df "id" row ∉ map id ar) ->
             at_column PNone df "section_ar" row = PNone
             /\ at_column PNone df "name_ar" row = PNone
             /\ at_column PNone df "description_ar" row = PNone)
          /\ ((at_column PNone df "id" row ∉ map id en) ->
                at_column PNone df "section_en" row = PNone
                /\ at_column PNone df "name_en" row = PNone
                /\ at_column PNone df "description_en" row = PNone
                /\ at_column PNone df "price_en" row = PNone
                /\ at_column PNone df "originalImage" row = PNone))
    /\ (forall m, m ∈ en ->
          exists row, row ∈ rows df
            /\ at_column PNone df "id" row = id m
            /\ (is_str (originalSection m) ->
                at_column PNone df "section_en" row = originalSection m)
            /\ (is_str (name m) -> at_column PNone df "name_en" row = name m)
            /\ (is_str (description m) ->
                at_column PNone df "description_en" row = description m)
            /\ (is_str (price m) ->
                at_column PNone df "price_en" row = price m)
            /\ (is_str (originalImage m) ->
                at_column PNone df "originalImage" row = originalImage m))
    /\ (forall a, a ∈ ar ->
          exists row, row ∈ rows df
            /\ at_column PNone df "id" row = id a
            /\ (is_str (originalSection a) ->
                at_column PNone df "section_ar" row = originalSection a)
            /\ (is_str (name a) -> at_column PNone df "name_ar" row = name a)
            /\ (is_str (description a) ->
                at_column PNone df "description_ar" row = description a)).
Proof.
  intros Hen Har _ Nden Ndar.
  exists (mkFrame final_columns (joined_rows PNone en ar)).
  split; [apply merge_data_joined; assumption|].
  split; [reflexivity|].
  change (rows (mkFrame final_columns (joined_rows PNone en ar)))
    with (joined_rows PNone en ar).
  change (map (at_column PNone
                 (mkFrame final_columns (joined_rows PNone en ar)) "id")
            (joined_rows PNone en ar))
    with (map (cell PNone 0) (joined_rows PNone en ar)).
  split; [apply joined_rows_length; assumption|].
  rewrite joined_ids by assumption.
  split; [apply NoDup_joined_ids; assumption|]. split.
  - intros k. rewrite elem_of_app, unmatched_ids.
    destruct (decide (k ∈ map id en)); tauto.
  - split; [|split].
    + intros row Hrow. apply list_elem_of_In, joined_rows_In in Hrow.
      destruct Hrow as [(m & a & Hm & Ha & Hid & ->)
                       |[(m & Hm & Hno & ->)|(a & Ha & Hno & ->)]];
        cbn; split; intros Hout; repeat split; exfalso; apply Hout;
        apply elem_of_ids; eauto.
    + intros m Hm. apply list_elem_of_In in Hm.
      destruct (decide (id m ∈ map id ar)) as [Hin|Hno].
      * apply elem_of_ids in Hin as (a & Ha & Hid).
        exists (row_both m a). split; [|cbn; tauto].
        apply list_elem_of_In, joined_rows_In. left. eauto 6.
      * exists (row_left PNone m). split; [|cbn; tauto].
        apply list_elem_of_In, joined_rows_In. right. left. eauto.
    + intros a Ha. apply list_elem_of_In in Ha.
      destruct (decide (id a ∈ map id en)) as [Hin|Hno].
      * apply elem_of_ids in Hin as (m & Hm & Hid).
        exists (row_both m a). split; [|cbn; rewrite Hid; tauto].
        apply list_elem_of_In, joined_rows_In. left. eauto 6.
      * exists (row_right PNone a). split; [|cbn; tauto].
        apply list_elem_of_In, joined_rows_In. right. right. eauto.
Qed.

(** X8.  How repeated identifiers multiply the rows.  For two sequences
    that are not empty and whose identifiers are all strings or all
    integers that fit in 64 bits, the table has, for an identifier carried
    by [e] primary items and [a] secondary items, [e * a] rows when both
    are positive, [e] rows when [a] is zero and [a] rows when [e] is
    zero. *)
Theorem merge_data_rows (en ar : list (MenuItem pyval)) :
  en <> [] -> ar <> [] ->
  exact_ids en ar ->
  exists df,
    merge_data PNone en ar = Ok df
    /\ columns df = final_columns
    /\ forall k,
         length (List.filter
                   (fun row => bool_decide (at_column PNone df "id" row = k))
                   (rows df))
         = match occurrences k en, occurrences k ar with
           | O, a => a
           | e, O => e
           | e, a => (e * a)%nat
           end.
Proof.
  intros Hen Har _. eexists. split; [apply merge_data_joined; assumption|].
  split; [reflexivity|].
  intros k. apply (joined_rows_count PNone en ar k).
Qed.

(** A menu item of one locale with an identifier, a name and a section. *)
Definition item (i : pyval) (n section : string) : MenuItem pyval :=
  mkMenuItem i (PStr (py n)) PNone PNone (PStr (py section)) PNone PNone PNone.

(** The amended C1 on the specification's scenario with one identifier on
    each side only: [b2] in the primary locale, [b3] in the secondary. *)
Lemma merge_data_outer_join_witness :
  let en := [item (PStr (py "b2")) "Burger" "Mains"] in
  let ar := [item (PStr (py "b3")) "Salata" "Muqabbilat"] in
  exists df,
    merge_data PNone en ar = Ok df
    /\ length (rows df) = 2%nat.
Proof.
  intros en ar.
  destruct (merge_data_outer_join en ar) as (df & E & _ & Hlen & _).
  - discriminate.
  - discriminate.
  - left. repeat constructor; eexists; reflexivity.
  - repeat constructor. apply not_elem_of_nil.
  - repeat constructor. apply not_elem_of_nil.
  - exists df. split; [exact E|]. rewrite Hlen. vm_compute. reflexivity.
Defined.

(** C1 as the specification words it does not hold: the primary sequence
    below carries the identifier [1] twice and the secondary one once; the
    two sequences have one distinct identifier and the table has two rows,
    both with the identifier [1]. *)
Lemma merge_data_counterexample :
  let en := [item (PInt 1) "Burger" "Mains"; item (PInt 1) "Burger XL" "Mains"] in
  let ar := [item (PInt 1) "Burjar" "Atbaq"] in
  length (remove_dups (map id en ++ map id ar)) = 1%nat
  /\ exists df,
       merge_data PNone en ar = Ok df
       /\ length (rows df) = 2%nat
       /\ map (at_column PNone df "id") (rows df) = [PInt 1; PInt 1]
       /\ map (at_column PNone df "name_en") (rows df)
          = [PStr (py "Burger"); PStr (py "Burger XL")].
Proof.
  split; [vm_compute; reflexivity|].
  eexists. split; [vm_compute; reflexivity|].
  vm_compute. repeat split; reflexivity.
Qed.

Lemma merge_data_no_primary_witness :
  let a1 := mkMenuItem (Some 1) (Some 10) None None (Some 7) None None None in
  let a2 := mkMenuItem (Some 2) (Some 20) (Some 21) None (Some 8) None None None in
  exists df,
    merge_data (None : option Z) [] [a1; a2] = Ok df
    /\ columns df = ["section_ar"; "name_ar"; "description_ar"]%string
    /\ has_column "id" df = false
    /\ length (rows df) = 2%nat
    /\ forall (i : nat) (a : MenuItem (option Z)),
         [a1; a2] !! i = Some a ->
         rows df !! i = Some [originalSection a; name a; description a].
Proof.
  intros a1 a2.
  apply (merge_data_no_primary (None : option Z) [a1; a2]). discriminate.
Defined.

Lemma merge_data_rows_witness :
  let en := [item (PInt 1) "Burger" "Mains"; item (PInt 1) "Burger XL" "Mains";
             item (PInt 2) "Fries" "Sides"] in
  let ar := [item (PInt 1) "Burjar" "Atbaq"; item (PInt 1) "Burjar" "Jadid";
             item (PInt 3) "Salata" "Muqabbilat"] in
  exists df,
    merge_data PNone en ar = Ok df
    /\ length (List.filter
                 (fun row => bool_decide (at_column PNone df "id" row = PInt 1))
                 (rows df)) = 4%nat
    /\ length (List.filter
                 (fun row => bool_decide (at_column PNone df "id" row = PInt 2))
                 (rows df)) = 1%nat
    /\ length (List.filter
                 (fun row => bool_decide (at_column PNone df "id" row = PInt 3))
                 (rows df)) = 1%nat.
Proof.
  intros en ar.
  destruct (merge_data_rows en ar) as (df & E & _ & Hrows).
  - discriminate.
  - discriminate.
  - right. repeat constructor; eexists; (split; [reflexivity|lia]).
  - exists df. split; [exact E|]. rewrite !Hrows. vm_compute. auto.
Defined.

Lemma merge_data_discards_witness :
  merge_data (None : option Z)
    [mkMenuItem (Some 1) (Some 10) None (Some 5) (Some 7) (Some 90) None (Some 91)]
    [mkMenuItem (Some 1) (Some 30) None (Some 6) (Some 9) (Some 92) (Some 93) None]
  = merge_data None
      [mkMenuItem (Some 1) (Some 10) None (Some 5) (Some 7) None None None]
      [mkMenuItem (Some 1) (Some 30) None None (Some 9) None None None].
Proof.
  apply merge_data_discards; repeat constructor.
Defined.

End Merger.

(* ===================================================================== *)
(** * Page fetcher ([fetch_html])                                         *)
(* ===================================================================== *)

Module Fetcher.

(** What the function receives from [requests.get]. *)
Record Response := mkResponse {
  status_code : Z;
  text : str
}.

(** One call of [requests.get] either raises a [RequestException]
    (connection error, timeout, ...) or returns a response. *)
Inductive get_outcome :=
| GetRaises
| GetReturns (r : Response).

(** What the function does to the outside. *)
Inductive event :=
| Request (url : str) (proxies : option (str * str)) (timeout : Z)
| Print
| Sleep (seconds : Z).

(** The state threaded through a call: how many requests have been sent,
    and everything done so far, oldest first. *)
Record world := mkWorld {
  sent : nat;
  trace : list event
}.

Definition log (e : event) (w : world) : world :=
  mkWorld (sent w) (trace w ++ [e]).

Section fetcher.

(** The network: the outcome of the request number [n], which may depend
    on the address and on the proxies. *)
Variable server : nat -> str -> option (str * str) -> get_outcome.

(** [response.raise_for_status()]: the status codes for which the library
    raises [HTTPError].  The loop below is described for any such table;
    [raise_for_status], after the section, is the table of the library. *)
Variable http_error : Z -> bool.

(** [requests.get(url, headers=HEADERS, proxies=proxies, timeout=10)]. *)
Definition requests_get (url : str) (proxies : option (str * str))
    (w : world) : get_outcome * world :=
  (server (sent w) url proxies,
   mkWorld (S (sent w)) (trace w ++ [Request url proxies 10])).

(** Lines 18-23: both schemes go through [proxy] when it is given and not
    empty. *)
Definition proxies_of (proxy : option str) : option (str * str) :=
  match proxy with
  | Some (c :: p) => Some (c :: p, c :: p)
  | _ => None
  end.

(** Lines 18-31: the body of [fetch_html], one attempt. *)
Definition fetch_html_once (url : str) (proxy : option str) (w : world)
  : result str * world :=
  let proxies := proxies_of proxy in
  match requests_get url proxies w with
  | (GetReturns response, w1) =>
      if http_error (status_code response)
      then (Raise RequestException, log Print w1)
      else (Ok (text response), w1)
  | (GetRaises, w1) => (Raise RequestException, log Print w1)
  end.

(** The [retry] decorator: the call is made again after a failure, with a
    pause of [wait] before it, until [more] further attempts have been
    made; the last failure is raised wrapped in [RetryError]. *)
Fixpoint retry_call {A : Type} (more : nat) (wait : Z)
    (f : world -> result A * world) (w : world) : result A * world :=
  match f w with
  | (Ok a, w1) => (Ok a, w1)
  | (Raise e, w1) =>
      match more with
      | O => (Raise (RetryError e), w1)
      | S more' => retry_call more' wait f (log (Sleep wait) w1)
      end
  end.

(** [@retry(stop=stop_after_attempt(n), wait=wait_fixed(wait))]. *)
Definition retry {A : Type} (stop_after_attempt : nat) (wait_fixed : Z)
    (f : world -> result A * world) : world -> result A * world :=
  retry_call (stop_after_attempt - 1) wait_fixed f.

Definition fetch_html (url : str) (proxy : option str)
  : world -> result str * world :=
  retry 3 2 (fetch_html_once url proxy).

(** ** What the specification talks about *)

(** The request number [n] for this address fails at the transport
    level. *)
Definition fails (url : str) (proxy : option str) (n : nat) : Prop :=
  match server n url (proxies_of proxy) with
  | GetRaises => True
  | GetReturns r => http_error (status_code r) = true
  end.

(** It succeeds with the body [body]. *)
Definition succeeds (url : str) (proxy : option str) (n : nat) (body : str)
  : Prop :=
  exists r, server n url (proxies_of proxy) = GetReturns r
            /\ http_error (status_code r) = false /\ text r = body.

(** What [k] failed attempts leave in the trace: each is a request and a
    message, and a pause of two time units separates one attempt from the
    next. *)
Fixpoint failed_attempts (url : str) (proxy : option str) (k : nat)
  : list event :=
  match k with
  | O => []
  | S k' =>
      [Request url (proxies_of proxy) 10; Print; Sleep 2]
      ++ failed_attempts url proxy k'
  end.

Definition requests_in (t : list event) : nat :=
  length (List.filter (fun e => match e with Request _ _ _ => true | _ => false end) t).

(** ** One attempt *)

Lemma fetch_html_once_fails (url : str) (proxy : option str) (w : world) :
  fails url proxy (sent w) ->
  fetch_html_once url proxy w
  = (Raise RequestException,
     mkWorld (S (sent w))
       (trace w ++ [Request url (proxies_of proxy) 10; Print])).
Proof.
  unfold fails, fetch_html_once, requests_get, log. intros Hf.
  destruct (server (sent w) url (proxies_of proxy)) as [|r]; simpl.
  - rewrite <- app_assoc. reflexivity.
  - rewrite Hf. simpl. rewrite <- app_assoc. reflexivity.
Qed.

Lemma fetch_html_once_succeeds (url : str) (proxy : option str) (w : world)
    (body : str) :
  succeeds url proxy (sent w) body ->
  fetch_html_once url proxy w
  = (Ok body,
     mkWorld (S (sent w)) (trace w ++ [Request url (proxies_of proxy) 10])).
Proof.
  unfold fetch_html_once, requests_get. intros (r & E & Hok & <-).
  rewrite E. simpl. rewrite Hok. reflexivity.
Qed.

Lemma fetch_html_once_sent (url : str) (proxy : option str) (w : world) :
  sent (fetch_html_once url proxy w).2 = S (sent w).
Proof.
  unfold fetch_html_once, requests_get.
  destruct (server (sent w) url (proxies_of proxy)) as [|r]; simpl;
    [reflexivity|].
  destruct (http_error (status_code r)); reflexivity.
Qed.

(** ** The retry loop *)

Lemma retry_call_first_success (url : str) (proxy : option str) (body : str)
    (k : nat) : forall (more : nat) (w : world),
  (k <= more)%nat ->
  (forall i, (i < k)%nat -> fails url proxy (sent w + i)) ->
  succeeds url proxy (sent w + k) body ->
  retry_call more 2 (fetch_html_once url proxy) w
  = (Ok body,
     mkWorld (sent w + k + 1)
       (trace w ++ failed_attempts url proxy k
        ++ [Request url (proxies_of proxy) 10])).
Proof.
  induction k as [|k IH]; intros more w Hk Hfail Hok.
  - rewrite Nat.add_0_r in Hok.
    destruct more; simpl; rewrite (fetch_html_once_succeeds _ _ _ _ Hok);
      do 2 f_equal; lia.
  - destruct more as [|more]; [lia|].
    pose proof (Hfail 0%nat ltac:(lia)) as H0. rewrite Nat.add_0_r in H0.
    simpl retry_call. rewrite (fetch_html_once_fails _ _ _ H0).
    rewrite IH; simpl sent; simpl trace.
    + f_equal. f_equal; [lia|]. simpl. rewrite <- !app_assoc. reflexivity.
    + lia.
    + intros i Hi. replace (S (sent w) + i)%nat with (sent w + S i)%nat by lia.
      apply Hfail. lia.
    + replace (S (sent w) + k)%nat with (sent w + S k)%nat by lia. exact Hok.
Qed.

Lemma retry_call_exhausted (url : str) (proxy : option str) (more : nat) :
  forall (w : world),
  (forall i, (i <= more)%nat -> fails url proxy (sent w + i)) ->
  retry_call more 2 (fetch_html_once url proxy) w
  = (Raise (RetryError RequestException),
     mkWorld (sent w + more + 1)
       (trace w ++ failed_attempts url proxy more
        ++ [Request url (proxies_of proxy) 10; Print])).
Proof.
  induction more as [|more IH]; intros w Hfail;
    pose proof (Hfail 0%nat ltac:(lia)) as H0; rewrite Nat.add_0_r in H0;
    simpl retry_call; rewrite (fetch_html_once_fails _ _ _ H0).
  - do 2 f_equal. lia.
  - rewrite IH; simpl sent; simpl trace.
    + f_equal. f_equal; [lia|]. simpl. rewrite <- !app_assoc. reflexivity.
    + intros i Hi. replace (S (sent w) + i)%nat with (sent w + S i)%nat by lia.
      apply Hfail. lia.
Qed.

Lemma retry_call_sent (url : str) (proxy : option str) (more : nat) :
  forall (w : world),
  (sent w < sent (retry_call more 2 (fetch_html_once url proxy) w).2
   <= sent w + more + 1)%nat.
Proof.
  induction more as [|more IH]; intros w; simpl;
    pose proof (fetch_html_once_sent url proxy w) as Hs;
    destruct (fetch_html_once url proxy w) as [[body|e] w1]; simpl in *;
    try lia.
  specialize (IH (log (Sleep 2) w1)). simpl in IH. lia.
Qed.

(** ** The three attempts *)

(** [fetch_html] sends at least one request and at most three.  When the
    first attempt that does not fail is attempt [k + 1 <= 3], it returns
    the body received then, after [k] failed attempts, each followed by a
    pause of two time units.  When the three attempts fail, it raises (the
    last failure, wrapped by the retry decorator) after three requests with
    a pause of two time units between them and none after the last. *)
Lemma fetch_html_attempts (url : str) (proxy : option str) (w : world) :
  (sent w < sent (fetch_html url proxy w).2 <= sent w + 3)%nat
  /\ (forall (k : nat) (body : str),
        (k < 3)%nat ->
        (forall i, (i < k)%nat -> fails url proxy (sent w + i)) ->
        succeeds url proxy (sent w + k) body ->
        fetch_html url proxy w
        = (Ok body,
           mkWorld (sent w + k + 1)
             (trace w ++ failed_attempts url proxy k
              ++ [Request url (proxies_of proxy) 10])))
  /\ ((forall i, (i < 3)%nat -> fails url proxy (sent w + i)) ->
      fetch_html url proxy w
      = (Raise (RetryError RequestException),
         mkWorld (sent w + 3)
           (trace w
            ++ [Request url (proxies_of proxy) 10; Print; Sleep 2;
                Request url (proxies_of proxy) 10; Print; Sleep 2;
                Request url (proxies_of proxy) 10; Print]))).
Proof.
  unfold fetch_html, retry. simpl Nat.sub. repeat split.
  - apply retry_call_sent.
  - pose proof (retry_call_sent url proxy 2 w). lia.
  - intros k body Hk Hfail Hok. apply retry_call_first_success; [lia|auto..].
  - intros Hfail. rewrite retry_call_exhausted.
    + do 2 f_equal. lia.
    + intros i Hi. apply Hfail. lia.
Qed.

(** ** A further property of the fetcher *)

Lemma fails_or_succeeds (url : str) (proxy : option str) (n : nat) :
  fails url proxy n \/ exists body, succeeds url proxy n body.
Proof.
  unfold fails, succeeds.
  destruct (server n url (proxies_of proxy)) as [|r]; [left; exact I|].
  destruct (http_error (status_code r)) eqn:E; [left; reflexivity|].
  right. exists (text r), r. auto.
Qed.

(** X10.  What [fetch_html] returns was received: a body it returns is the body
    of the first attempt that did not fail, among at most three; and when
    it raises, the three attempts failed. *)
Theorem fetch_html_outcome_sound (url : str) (proxy : option str) (w : world) :
  (forall body, (fetch_html url proxy w).1 = Ok body ->
     exists k, (k < 3)%nat
       /\ (forall i, (i < k)%nat -> fails url proxy (sent w + i))
       /\ succeeds url proxy (sent w + k) body)
  /\ (forall e, (fetch_html url proxy w).1 = Raise e ->
        e = RetryError RequestException
        /\ forall i, (i < 3)%nat -> fails url proxy (sent w + i)).
Proof.
  unfold fetch_html, retry. simpl Nat.sub.
  assert (Hcases :
    (exists k body, (k < 3)%nat
       /\ (forall i, (i < k)%nat -> fails url proxy (sent w + i))
       /\ succeeds url proxy (sent w + k) body)
    \/ (forall i, (i < 3)%nat -> fails url proxy (sent w + i))).
  { destruct (fails_or_succeeds url proxy (sent w + 0)) as [F0|[b S0]];
      [|left; exists 0%nat, b; repeat split; [lia|intros; lia|exact S0]].
    destruct (fails_or_succeeds url proxy (sent w + 1)) as [F1|[b S1]];
      [|left; exists 1%nat, b; repeat split; [lia| |exact S1];
        intros [|i] Hi; [exact F0|lia]].
    destruct (fails_or_succeeds url proxy (sent w + 2)) as [F2|[b S2]];
      [|left; exists 2%nat, b; repeat split; [lia| |exact S2];
        intros [|[|i]] Hi; [exact F0|exact F1|lia]].
    right. intros [|[|[|i]]] Hi; [exact F0|exact F1|exact F2|lia]. }
  destruct Hcases as [(k & b & Hk & Hfail & Hok)|Hall].
  - rewrite (retry_call_first_success url proxy b k 2 w ltac:(lia) Hfail Hok).
    simpl. split.
    + intros body [= <-]. eauto.
    + intros e He. discriminate.
  - rewrite (retry_call_exhausted url proxy 2 w).
    + simpl. split; [intros body Hb; discriminate|].
      intros e [= <-]. auto.
    + intros i Hi. apply Hall. lia.
Qed.

End fetcher.

(** ** The claim about the fetcher *)

(** [response.raise_for_status()] of the library raises [HTTPError], a
    [RequestException], for a client error (400 to 499) and for a server
    error (500 to 599), and for no other status. *)
Definition raise_for_status (status : Z) : bool :=
  (400 <=? status) && (status <? 600).

(** An attempt fails at the transport level: the request raised, or its
    response has a status from 400 to 599. *)
Definition transport_failure (o : get_outcome) : Prop :=
  match o with
  | GetRaises => True
  | GetReturns r => 400 <= status_code r < 600
  end.

(** An attempt delivers [body]: a response with any other status. *)
Definition delivers (o : get_outcome) (body : str) : Prop :=
  exists r, o = GetReturns r
            /\ ~ (400 <= status_code r < 600) /\ text r = body.

Lemma raise_for_status_true (status : Z) :
  raise_for_status status = true <-> 400 <= status < 600.
Proof. unfold raise_for_status. lia. Qed.

Lemma raise_for_status_false (status : Z) :
  raise_for_status status = false <-> ~ (400 <= status < 600).
Proof. unfold raise_for_status. lia. Qed.

(** C9 (amended).  With the status check of the library, [fetch_html] sends
    at least one request and at most three.  An attempt fails when the
    request raises or the response has a status from 400 to 599; a response
    with any other status, 2xx or not, ends the call with its body.  When
    the first attempt that does not fail is attempt [k + 1 <= 3], the call
    returns the body received then, after [k] failed attempts, each
    followed by a pause of two time units.  When the three attempts fail,
    it raises (the last failure, wrapped by the retry decorator) after
    three requests with a pause of two time units between them and none
    after the last. *)
Theorem fetch_html_retry_policy
    (server : nat -> str -> option (str * str) -> get_outcome)
    (url : str) (proxy : option str) (w : world) :
  let attempt := fun i => server (sent w + i)%nat url (proxies_of proxy) in
  let run := fetch_html server raise_for_status url proxy w in
  (sent w < sent run.2 <= sent w + 3)%nat
  /\ (forall (k : nat) (body : str),
        (k < 3)%nat ->
        (forall i, (i < k)%nat -> transport_failure (attempt i)) ->
        delivers (attempt k) body ->
        run
        = (Ok body,
           mkWorld (sent w + k + 1)
             (trace w ++ failed_attempts url proxy k
              ++ [Request url (proxies_of proxy) 10])))
  /\ ((forall i, (i < 3)%nat -> transport_failure (attempt i)) ->
      run
      = (Raise (RetryError RequestException),
         mkWorld (sent w + 3)
           (trace w
            ++ [Request url (proxies_of proxy) 10; Print; Sleep 2;
                Request url (proxies_of proxy) 10; Print; Sleep 2;
                Request url (proxies_of proxy) 10; Print]))).
Proof.
  intros attempt run.
  assert (Hfails : forall i, transport_failure (attempt i)
                             -> fails server raise_for_status url proxy (sent w + i)).
  { intros i. unfold transport_failure, fails, attempt.
    destruct (server (sent w + i)%nat url (proxies_of proxy)) as [|r];
      [trivial|]. apply raise_for_status_true. }
  destruct (fetch_html_attempts server raise_for_status url proxy w)
    as (Hsent & Hfirst & Hall).
  split; [exact Hsent|]. split.
  - intros k body Hk Hfail (r & Hr & Hstatus & Hbody).
    apply Hfirst; [exact Hk|auto|].
    exists r. split; [exact Hr|]. split; [|exact Hbody].
    apply raise_for_status_false, Hstatus.
  - intros Hfail. apply Hall. auto.
Qed.

(** The amended C9 on a server that refuses once, answers 404 once and
    then answers 200, and on one that always answers 503. *)
Lemma fetch_html_retry_policy_witness :
  let url := py "https://example.test/menu" in
  fetch_html
    (fun n _ _ => if (n <? 1)%nat then GetRaises
                  else if (n <? 2)%nat then GetReturns (mkResponse 404 [])
                  else GetReturns (mkResponse 200 (py "<html>")))
    raise_for_status url None (mkWorld 0 [])
  = (Ok (py "<html>"),
     mkWorld 3
       [Request url None 10; Print; Sleep 2;
        Request url None 10; Print; Sleep 2;
        Request url None 10])
  /\ fetch_html (fun _ _ _ => GetReturns (mkResponse 503 [])) raise_for_status
       url None (mkWorld 0 [])
     = (Raise (RetryError RequestException),
        mkWorld 3
          [Request url None 10; Print; Sleep 2;
           Request url None 10; Print; Sleep 2;
           Request url None 10; Print]).
Proof.
  intros url. split.
  - apply (proj1 (proj2 (fetch_html_retry_policy _ url None (mkWorld 0 [])))
             2%nat (py "<html>")).
    + lia.
    + intros [|[|i]] Hi; [exact I|simpl; lia|lia].
    + eexists. split; [reflexivity|]. split; [simpl; lia|reflexivity].
  - apply (proj2 (proj2 (fetch_html_retry_policy _ url None (mkWorld 0 [])))).
    intros i _. simpl. lia.
Defined.

(** C9 as the specification words it does not hold for every status
    outside 2xx.  A server answers 304 (then 300, then 199) with a body:
    [fetch_html] returns that body after a single request, with no second
    attempt and no pause. *)
Lemma fetch_html_retry_policy_counterexample :
  let url := py "https://example.test/menu" in
  let answer := fun status =>
    fun (_ : nat) (_ : str) (_ : option (str * str)) =>
      GetReturns (mkResponse status (py "not the menu")) in
  fetch_html (answer 304) raise_for_status url None (mkWorld 0 [])
  = (Ok (py "not the menu"), mkWorld 1 [Request url None 10])
  /\ fetch_html (answer 300) raise_for_status url None (mkWorld 0 [])
     = (Ok (py "not the menu"), mkWorld 1 [Request url None 10])
  /\ fetch_html (answer 199) raise_for_status url None (mkWorld 0 [])
     = (Ok (py "not the menu"), mkWorld 1 [Request url None 10]).
Proof.
  vm_compute. repeat split; reflexivity.
Qed.

Lemma fetch_html_outcome_sound_witness :
  let http_error := fun s => (400 <=? s) && (s <? 600) in
  let server := fun (n : nat) (_ : list N) (_ : option (list N * list N)) =>
                  if (n <? 1)%nat then GetReturns (mkResponse 500 [])
                  else GetReturns (mkResponse 200 (py "<html>")) in
  exists k, (k < 3)%nat
    /\ (forall i, (i < k)%nat ->
          fails server http_error (py "https://x.test/") None (0 + i))
    /\ succeeds server http_error (py "https://x.test/") None (0 + k)
         (py "<html>").
Proof.
  intros http_error server.
  apply (proj1 (fetch_html_outcome_sound server http_error
                  (py "https://x.test/") None (mkWorld 0 []))).
  reflexivity.
Defined.

End Fetcher.

(* ===================================================================== *)
(** * Image retriever ([download_image])                                  *)
(* ===================================================================== *)

Module Retriever.

(** ** [os.path] on POSIX paths *)

Definition slash : char := 47%N.
Definition dot : char := 46%N.

(** [os.path.basename(p)]. *)
Definition basename (p : str) : str :=
  drop (Z.to_nat (rfind slash p + 1)) p.

(** [os.path.splitext(p)]: the extension starts at the last dot of the last
    component, unless that component has only dots before it. *)
Definition splitext (p : str) : str * str :=
  let sepIndex := rfind slash p in
  let dotIndex := rfind dot p in
  if sepIndex <? dotIndex then
    let filenameIndex := sepIndex + 1 in
    if existsb (fun c => negb (c =? dot)%N)
         (slice (Z.to_nat filenameIndex) (Z.to_nat dotIndex) p)
    then (take (Z.to_nat dotIndex) p, drop (Z.to_nat dotIndex) p)
    else (p, [])
  else (p, []).

(** [os.path.join(a, b)]. *)
Definition join (a b : str) : str :=
  match b with
  | c :: _ =>
      if (c =? slash)%N then b
      else
        match last a with
        | None => b
        | Some l => if (l =? slash)%N then a ++ b else a ++ slash :: b
        end
  | [] =>
      match last a with
      | None => []
      | Some l => if (l =? slash)%N then a else a ++ [slash]
      end
  end.

(** ** The network and the file system *)

(** What the function reads from the response: the status, the declared
    content type, and the body as the chunks that [iter_content] yields;
    [broken] says that the stream raises after these chunks. *)
Record Response := mkResponse {
  status_code : Z;
  content_type : option str;
  chunks : list (list N);
  broken : bool
}.

Inductive get_outcome :=
| GetRaises
| GetReturns (r : Response).

Inductive event :=
| Request (url : str)
| Print
| Pause.

(** The regular files with their bytes, the other paths that exist
    (directories), the number of requests sent, and what was done so far.
    A path is the string that names it: two spellings of one file are two
    paths. *)
Record world := mkWorld {
  files : gmap (list N) (list N);
  dirs : gset (list N);
  sent : nat;
  trace : list event
}.

Definition existing (w : world) : gset (list N) := dom (files w) ∪ dirs w.

(** [os.path.exists(p)]. *)
Definition path_exists (w : world) (p : str) : bool :=
  bool_decide (p ∈ existing w).

Definition log (e : event) (w : world) : world :=
  mkWorld (files w) (dirs w) (sent w) (trace w ++ [e]).

Section retriever.

(** The network: the outcome of the request number [n]. *)
Variable server : nat -> str -> get_outcome.

(** [response.raise_for_status()]: the statuses for which it raises. *)
Variable http_error : Z -> bool.

(** [mimetypes.guess_extension]: the table of the standard library. *)
Variable guess_extension : str -> option str.

(** [str.isalpha] and [str.isdigit] on one character: the tables of the
    Unicode database. *)
Variable isalpha : char -> bool.
Variable isdigit : char -> bool.

(** The paths that [open(path, 'wb')] can create: the directory is there
    and writable. *)
Variable openable : str -> bool.

(** [requests.get(url, headers=HEADERS, stream=True)]. *)
Definition requests_get (url : str) (w : world) : get_outcome * world :=
  (server (sent w) url,
   mkWorld (files w) (dirs w) (S (sent w)) (trace w ++ [Request url])).

(** Lines 123 and 128: the characters kept in a file name. *)
Definition keep (c : char) : bool :=
  isalpha c || isdigit c
  || (c =? 46)%N || (c =? 95)%N || (c =? 45)%N || (c =? 32)%N.

Definition sanitize (s : str) : str := strip (List.filter keep s).

(** Lines 112-119: the extension. *)
Definition determine_ext (clean_url : str) (response : Response) : str :=
  let ext := (splitext clean_url).2 in
  let ext :=
    match ext with
    | [] =>
        match content_type response with
        | Some (c :: ct) => default [] (guess_extension (c :: ct))
        | _ => ext
        end
    | _ => ext
    end in
  match ext with
  | [] => py ".jpg"
  | _ => ext
  end.

(** The path tried for the counter [counter] (line 137). *)
Definition candidate (save_dir base extension : str) (counter : nat) : str :=
  join save_dir (base ++ py "_" ++ str_of_nat counter ++ extension).

(** The loop of lines 136-138, entered with [save_path] and [counter]:
    [fuel] bounds the number of paths tried after [save_path]. *)
Fixpoint next_free (fuel : nat) (w : world) (save_dir base extension : str)
    (save_path : str) (counter : nat) : option str :=
  if path_exists w save_path then
    match fuel with
    | O => None
    | S fuel' =>
        next_free fuel' w save_dir base extension
          (candidate save_dir base extension counter) (S counter)
    end
  else Some save_path.

(** Lines 142-146: the file is created, the chunks are written, and the
    function pauses; a failure to open the file or a stream that breaks is
    an exception, caught at line 147. *)
Definition write_file (save_path : str) (response : Response) (w : world)
  : option str * world :=
  if openable save_path then
    let w1 :=
      mkWorld (<[save_path := concat (chunks response)]> (files w))
        (dirs w) (sent w) (trace w) in
    if broken response then (None, log Print w1)
    else (Some save_path, log Pause w1)
  else (None, log Print w).

Definition download_image (url : option str) (save_dir : str)
    (filename_prefix : str) (custom_filename : option str) (w : world)
  : option str * world :=
  match url with
  | None | Some [] => (None, w)
  | Some url =>
      let clean_url := split_head 63%N url in
      match requests_get url w with
      | (GetRaises, w1) => (None, log Print w1)
      | (GetReturns response, w1) =>
          if http_error (status_code response) then (None, log Print w1)
          else
            let ext := determine_ext clean_url response in
            let custom :=
              match custom_filename with
              | Some (c :: s) => true
              | _ => false
              end in
            let filename :=
              if custom then sanitize (default [] custom_filename) ++ ext
              else sanitize (filename_prefix ++ basename clean_url) in
            let save_path := join save_dir filename in
            if custom && path_exists w1 save_path then
              let '(base, extension) := splitext filename in
              match next_free (S (size (existing w1))) w1 save_dir base
                      extension save_path 1 with
              | Some save_path => write_file save_path response w1
              | None => (None, w1)
              end
            else if path_exists w1 save_path then (Some save_path, w1)
            else write_file save_path response w1
      end
  end.

(** ** The loop that looks for a free path *)

Lemma py_inj (s t : string) : py s = py t -> s = t.
Proof.
  unfold py. intros E.
  assert (Hback : forall l, map ascii_of_N (map N_of_ascii l) = l).
  { induction l as [|a l IH]; simpl; [reflexivity|].
    rewrite ascii_N_embedding, IH. reflexivity. }
  apply (f_equal (map ascii_of_N)) in E. rewrite !Hback in E.
  rewrite <- (string_of_list_ascii_of_string s),
          <- (string_of_list_ascii_of_string t), E.
  reflexivity.
Qed.

Lemma str_of_nat_inj (m n : nat) : str_of_nat m = str_of_nat n -> m = n.
Proof.
  unfold str_of_nat. intros E. apply py_inj in E.
  exact (pretty_nat_inj _ _ E).
Qed.

Lemma join_inj (a b b' : str) (c : char) :
  head b = Some c -> head b' = Some c -> join a b = join a b' -> b = b'.
Proof.
  destruct b as [|x b]; [discriminate|]. destruct b' as [|x' b']; [discriminate|].
  simpl. intros [= ->] [= ->].
  destruct (c =? slash)%N; [auto|].
  destruct (last a) as [l|]; [|auto].
  destruct (l =? slash)%N; intros E.
  - eapply app_inv_head, E.
  - apply app_inv_head in E. congruence.
Qed.

Lemma candidate_inj (save_dir base extension : str) (m n : nat) :
  candidate save_dir base extension m = candidate save_dir base extension n ->
  m = n.
Proof.
  unfold candidate. intros E.
  assert (Hhead : forall k,
            head (base ++ py "_" ++ str_of_nat k ++ extension)
            = Some (default 95%N (head base))).
  { intros k. destruct base; reflexivity. }
  apply (join_inj _ _ _ _ (Hhead m) (Hhead n)) in E.
  apply app_inv_head in E. apply (app_inv_head (py "_")) in E.
  apply app_inv_tail in E. apply str_of_nat_inj, E.
Qed.

(** Distinct paths that all exist are no more than the paths that exist. *)
Lemma candidates_bounded (w : world) (save_dir base extension : str)
    (c n : nat) :
  (forall k, (c <= k < c + n)%nat ->
     path_exists w (candidate save_dir base extension k) = true) ->
  (n <= size (existing w))%nat.
Proof.
  intros Hall.
  set (l := candidate save_dir base extension <$> seq c n).
  assert (Hnd : NoDup l).
  { apply NoDup_fmap_2; [|apply NoDup_seq].
    intros m k. apply candidate_inj. }
  assert (Hsub : (list_to_set l : gset (list N)) ⊆ existing w).
  { intros p Hp. apply elem_of_list_to_set in Hp.
    apply list_elem_of_fmap in Hp as (k & -> & Hk).
    apply elem_of_seq in Hk. specialize (Hall k Hk).
    unfold path_exists in Hall. apply bool_decide_eq_true in Hall. exact Hall. }
  apply subseteq_size in Hsub.
  rewrite size_list_to_set in Hsub by exact Hnd.
  unfold l in Hsub. rewrite length_fmap, length_seq in Hsub. exact Hsub.
Qed.

Lemma next_free_fresh (w : world) (save_dir base extension : str) (fuel : nat) :
  forall (save_path : str) (counter : nat) (q : str),
  next_free fuel w save_dir base extension save_path counter = Some q ->
  path_exists w q = false.
Proof.
  induction fuel as [|fuel IH]; intros p c q; simpl;
    destruct (path_exists w p) eqn:E; try discriminate;
    try (intros [= <-]; exact E).
  apply IH.
Qed.

Lemma next_free_None (w : world) (save_dir base extension : str) (fuel : nat) :
  forall (save_path : str) (counter : nat),
  next_free fuel w save_dir base extension save_path counter = None ->
  forall k, (counter <= k < counter + fuel)%nat ->
    path_exists w (candidate save_dir base extension k) = true.
Proof.
  induction fuel as [|fuel IH]; intros p c Hnone k Hk; [lia|].
  simpl in Hnone. destruct (path_exists w p); [|discriminate].
  destruct (decide (k = c)) as [->|Hne].
  - destruct fuel; simpl in Hnone;
      destruct (path_exists w (candidate save_dir base extension c));
      (reflexivity || discriminate).
  - apply (IH _ _ Hnone). lia.
Qed.

(** The loop ends. *)
Lemma next_free_total (w : world) (save_dir base extension : str)
    (save_path : str) (counter : nat) :
  next_free (S (size (existing w))) w save_dir base extension save_path counter
  <> None.
Proof.
  intros Hnone.
  pose proof (candidates_bounded w save_dir base extension counter
                (S (size (existing w)))
                (next_free_None _ _ _ _ _ _ _ Hnone)).
  lia.
Qed.

(** The loop stops at the first counter whose path is free. *)
Lemma next_free_finds (w : world) (save_dir base extension : str) (n : nat)
    (fuel : nat) : forall (save_path : str) (counter : nat),
  path_exists w save_path = true ->
  (counter <= n)%nat ->
  (n - counter < fuel)%nat ->
  (forall k, (counter <= k < n)%nat ->
     path_exists w (candidate save_dir base extension k) = true) ->
  path_exists w (candidate save_dir base extension n) = false ->
  next_free fuel w save_dir base extension save_path counter
  = Some (candidate save_dir base extension n).
Proof.
  induction fuel as [|fuel IH]; intros p c Hp Hc Hfuel Hall Hfree; [lia|].
  simpl. rewrite Hp.
  destruct (decide (c = n)) as [->|Hne].
  - destruct fuel; simpl; rewrite Hfree; reflexivity.
  - apply IH; try lia.
    + apply Hall. lia.
    + intros k Hk. apply Hall. lia.
    + exact Hfree.
Qed.

(** ** Writing *)

Lemma write_file_others (q : str) (r : Response) (w : world) (p : str) :
  p <> q -> files (write_file q r w).2 !! p = files w !! p.
Proof.
  intros Hne. unfold write_file.
  destruct (openable q); [|reflexivity].
  destruct (broken r); simpl; apply lookup_insert_ne; congruence.
Qed.

Lemma write_file_ok (q : str) (r : Response) (w : world) :
  openable q = true -> broken r = false ->
  write_file q r w
  = (Some q,
     mkWorld (<[q := concat (chunks r)]> (files w)) (dirs w) (sent w)
       (trace w ++ [Pause])).
Proof.
  intros Ho Hb. unfold write_file. rewrite Ho, Hb. reflexivity.
Qed.

(** ** What the specification talks about *)

(** The paths of a custom file name: the name itself, then the name with
    [_1], [_2], ... before its extension. *)
Definition nth_path (save_dir filename : str) (k : nat) : str :=
  match k with
  | O => join save_dir filename
  | S _ => candidate save_dir (splitext filename).1 (splitext filename).2 k
  end.

(** The path of a download under the name derived from the address. *)
Definition default_path (save_dir filename_prefix url : str) : str :=
  join save_dir (sanitize (filename_prefix ++ basename (split_head 63%N url))).

(** No custom file name: [None] or the empty string. *)
Definition no_custom (custom_filename : option str) : Prop :=
  custom_filename = None \/ custom_filename = Some [].

Lemma path_exists_insert (w : world) (p : str) (bytes : list N) (n : nat)
    (t : list event) :
  path_exists (mkWorld (<[p := bytes]> (files w)) (dirs w) n t) p = true.
Proof.
  unfold path_exists, existing. apply bool_decide_eq_true. simpl.
  apply elem_of_union_l, elem_of_dom. rewrite lookup_insert_eq. eauto.
Qed.

(** ** The claims about the retriever *)

(** C10.  Without an address, [None] or the empty string, the function
    returns [None] and the state is the one it was called in: no request
    is sent and no file is touched. *)
Theorem download_image_no_url (save_dir filename_prefix : str)
    (custom_filename : option str) (w : world) :
  download_image None save_dir filename_prefix custom_filename w = (None, w)
  /\ download_image (Some []) save_dir filename_prefix custom_filename w
     = (None, w).
Proof.
  split; reflexivity.
Qed.

(** *** The extension of an address, said without [split] and [splitext] *)

(** [clean] is the address [url] without its query: the text before the
    first question mark. *)
Definition query_stripped (url clean : str) : Prop :=
  (63%N ∉ clean) /\ (url = clean \/ exists q, url = clean ++ 63%N :: q).

(** [dir] is empty or ends with a slash: what comes after it is a last
    component. *)
Definition is_dir (dir : str) : Prop := dir = [] \/ last dir = Some slash.

(** The last component of [clean] is a name that is not made of dots only,
    a dot, and [e]. *)
Definition has_extension (clean e : str) : Prop :=
  exists dir name,
    clean = dir ++ name ++ dot :: e
    /\ is_dir dir
    /\ (slash ∉ name) /\ (exists c, c ∈ name /\ c <> dot)
    /\ (dot ∉ e) /\ (slash ∉ e).

(** The last component of [clean] has no dot after its leading dots. *)
Definition no_extension (clean : str) : Prop :=
  exists dir dots name,
    clean = dir ++ dots ++ name
    /\ is_dir dir
    /\ Forall (fun c => c = dot) dots
    /\ (dot ∉ name) /\ (slash ∉ name).

(** The response declares no content type from which an extension is
    guessed. *)
Definition no_guess (r : Response) : Prop :=
  match content_type r with
  | None | Some [] => True
  | Some ct => guess_extension ct = None \/ guess_extension ct = Some []
  end.

(** The preference order: the extension of the address; else the one
    guessed from the declared content type; else [.jpg]. *)
Inductive chosen_ext (clean : str) (r : Response) : str -> Prop :=
| ext_of_url (e : str) :
    has_extension clean e -> chosen_ext clean r (dot :: e)
| ext_of_content_type (ct e : str) :
    no_extension clean ->
    content_type r = Some ct -> ct <> [] ->
    guess_extension ct = Some e -> e <> [] ->
    chosen_ext clean r e
| ext_default :
    no_extension clean -> no_guess r -> chosen_ext clean r (py ".jpg").

Lemma split_head_before (sep : char) (clean rest : str) :
  sep ∉ clean -> rest = [] \/ (exists q, rest = sep :: q) ->
  split_head sep (clean ++ rest) = clean.
Proof.
  intros Hq Hrest. induction clean as [|c clean IH]; simpl.
  - destruct Hrest as [->|[q ->]]; [reflexivity|].
    simpl. rewrite N.eqb_refl. reflexivity.
  - apply not_elem_of_cons in Hq as [Hc Hq].
    destruct (N.eqb_spec c sep); [congruence|].
    rewrite IH by assumption. reflexivity.
Qed.

Lemma split_head_query (url clean : str) :
  query_stripped url clean -> split_head 63%N url = clean.
Proof.
  intros [Hq [->|[q ->]]].
  - rewrite <- (app_nil_r clean) at 1.
    apply split_head_before; [exact Hq|left; reflexivity].
  - apply split_head_before; [exact Hq|right; eauto].
Qed.

Lemma rfind_from_app (c : char) (a b : str) : forall (i last : Z),
  rfind_from c i last (a ++ b)
  = rfind_from c (i + Z.of_nat (length a)) (rfind_from c i last a) b.
Proof.
  induction a as [|x a IH]; intros i last.
  - simpl. f_equal. lia.
  - cbn [app rfind_from length]. rewrite IH. f_equal. lia.
Qed.

Lemma rfind_from_notin (c : char) (s : str) : forall (i last : Z),
  c ∉ s -> rfind_from c i last s = last.
Proof.
  induction s as [|x s IH]; intros i last Hc; [reflexivity|].
  apply not_elem_of_cons in Hc as [Hx Hc]. simpl.
  destruct (N.eqb_spec x c); [congruence|]. apply IH, Hc.
Qed.

Lemma rfind_from_lt (c : char) (s : str) : forall (i last : Z),
  last < i -> rfind_from c i last s < i + Z.of_nat (length s).
Proof.
  induction s as [|x s IH]; intros i last Hl.
  - simpl. lia.
  - cbn [rfind_from length].
    specialize (IH (i + 1) (if (x =? c)%N then i else last)).
    destruct (x =? c)%N; lia.
Qed.

(** The last slash of a path that ends in a last component [rest]. *)
Lemma rfind_slash_dir (dir rest : str) :
  is_dir dir -> slash ∉ rest ->
  rfind slash (dir ++ rest) = Z.of_nat (length dir) - 1.
Proof.
  intros Hdir Hrest. unfold rfind.
  rewrite rfind_from_app, rfind_from_notin by exact Hrest.
  destruct Hdir as [->|Hlast]; [reflexivity|].
  apply last_Some in Hlast as [d ->].
  rewrite rfind_from_app, length_app. simpl. lia.
Qed.

Lemma splitext_has_extension (clean e : str) :
  has_extension clean e -> (splitext clean).2 = dot :: e.
Proof.
  intros (dir & name & -> & Hdir & Hname & (c & Hc & Hcd) & He & Hse).
  unfold splitext.
  rewrite rfind_slash_dir; [|exact Hdir|].
  2:{ rewrite elem_of_app, elem_of_cons. intros [H|[H|H]]; [auto|discriminate|auto]. }
  assert (Hdot : rfind dot (dir ++ name ++ dot :: e)
                 = Z.of_nat (length dir + length name)).
  { unfold rfind. rewrite app_assoc, rfind_from_app. simpl.
    rewrite rfind_from_notin by exact He.
    rewrite length_app. lia. }
  rewrite Hdot.
  destruct (Z.ltb_spec (Z.of_nat (length dir) - 1)
              (Z.of_nat (length dir + length name))) as [_|]; [|lia].
  replace (Z.to_nat (Z.of_nat (length dir) - 1 + 1)) with (length dir) by lia.
  rewrite Nat2Z.id. unfold slice.
  replace (length dir + length name - length dir)%nat with (length name) by lia.
  rewrite drop_app_length, take_app_length.
  assert (Hex : existsb (fun c => negb (c =? dot)%N) name = true).
  { apply existsb_exists. exists c. split; [apply list_elem_of_In, Hc|].
    destruct (N.eqb_spec c dot); [congruence|reflexivity]. }
  rewrite Hex. simpl.
  rewrite app_assoc, <- length_app. apply drop_app_length.
Qed.

Lemma splitext_no_extension (clean : str) :
  no_extension clean -> (splitext clean).2 = [].
Proof.
  intros (dir & dots & name & -> & Hdir & Hdots & Hname & Hsl).
  unfold splitext.
  assert (Hnd : slash ∉ dots).
  { intros Hin. rewrite Forall_forall in Hdots.
    specialize (Hdots _ Hin). discriminate. }
  rewrite rfind_slash_dir; [|exact Hdir|].
  2:{ rewrite elem_of_app. intros [H|H]; auto. }
  destruct (Z.ltb_spec (Z.of_nat (length dir) - 1)
              (rfind dot (dir ++ dots ++ name))) as [Hlt|]; [|reflexivity].
  destruct dots as [|d0 ds0] using rev_ind.
  - exfalso. simpl in Hlt. unfold rfind in Hlt.
    rewrite rfind_from_app, rfind_from_notin in Hlt by exact Hname.
    pose proof (rfind_from_lt dot dir 0 (-1) ltac:(lia)). lia.
  - clear IHds0. apply Forall_app in Hdots as [Hds Hd0].
    apply List.Forall_inv in Hd0. simpl in Hd0. subst d0.
    assert (Hdot : rfind dot (dir ++ (ds0 ++ [dot]) ++ name)
                   = Z.of_nat (length dir + length ds0)).
    { unfold rfind.
      replace (dir ++ (ds0 ++ [dot]) ++ name)
        with ((dir ++ ds0) ++ dot :: name)
        by (rewrite <- !app_assoc; reflexivity).
      rewrite rfind_from_app. simpl.
      rewrite rfind_from_notin by exact Hname.
      rewrite length_app. lia. }
    rewrite Hdot.
    replace (Z.to_nat (Z.of_nat (length dir) - 1 + 1)) with (length dir) by lia.
    rewrite Nat2Z.id. unfold slice.
    replace (length dir + length ds0 - length dir)%nat with (length ds0) by lia.
    rewrite drop_app_length, <- !app_assoc, take_app_length.
    assert (Hex : existsb (fun c => negb (c =? dot)%N) ds0 = false).
    { clear -Hds. induction Hds as [|x l Hx _ IH]; [reflexivity|].
      simpl. subst x. rewrite N.eqb_refl. exact IH. }
    rewrite Hex. reflexivity.
Qed.

Lemma determine_ext_chosen (clean : str) (r : Response) (ext : str) :
  chosen_ext clean r ext -> determine_ext clean r = ext.
Proof.
  unfold determine_ext. intros [e He|ct e Hno Hct Hne Hg He|Hno Hg].
  - rewrite (splitext_has_extension _ _ He). reflexivity.
  - rewrite (splitext_no_extension _ Hno), Hct.
    destruct ct; [congruence|]. rewrite Hg. simpl.
    destruct e; [congruence|reflexivity].
  - rewrite (splitext_no_extension _ Hno). unfold no_guess in Hg.
    destruct (content_type r) as [[|c ct]|]; try reflexivity.
    destruct Hg as [-> | ->]; reflexivity.
Qed.

(** C8 (amended).  Under a custom file name the saved file carries the
    extension chosen in this order: the extension of the address without
    its query when its last component has one; otherwise the one guessed
    from the declared content type when there is a content type and a
    guess; otherwise [.jpg].  When the path of the sanitised name followed
    by that extension is free, the download is written there and that path
    is returned. *)
Theorem download_image_extension
    (url clean save_dir filename_prefix custom ext : str)
    (r : Response) (w : world) :
  url <> [] -> custom <> [] ->
  query_stripped url clean ->
  chosen_ext clean r ext ->
  server (sent w) url = GetReturns r ->
  http_error (status_code r) = false ->
  broken r = false ->
  let save_path := join save_dir (sanitize custom ++ ext) in
  path_exists w save_path = false ->
  openable save_path = true ->
  let res :=
    download_image (Some url) save_dir filename_prefix (Some custom) w in
  res.1 = Some save_path
  /\ files res.2 = <[save_path := concat (chunks r)]> (files w).
Proof.
  intros Hurl Hcustom Hclean Hext Hs Hok Hb save_path Hfree Hopen res.
  apply split_head_query in Hclean. apply determine_ext_chosen in Hext.
  subst res save_path.
  destruct url as [|c u]; [congruence|].
  destruct custom as [|x custom]; [congruence|].
  unfold download_image, requests_get. rewrite Hs, Hok.
  cbv zeta. change (default [] (Some (x :: custom))) with (x :: custom).
  rewrite Hclean, Hext.
  change (path_exists (mkWorld (files w) (dirs w) (S (sent w))
                         (trace w ++ [Request (c :: u)])))
    with (path_exists w).
  rewrite Hfree. simpl andb. cbv iota.
  rewrite write_file_ok by assumption. split; reflexivity.
Qed.

(** In custom mode a file is only ever created at a path that did not
    exist. *)
Lemma download_image_custom_keeps (url : option str)
    (save_dir filename_prefix custom : str) (w : world) (p : str) :
  custom <> [] ->
  path_exists w p = true ->
  files (download_image url save_dir filename_prefix (Some custom) w).2 !! p
  = files w !! p.
Proof.
  intros Hcustom Hp.
  destruct custom as [|x custom]; [congruence|].
  destruct url as [[|c u]|]; try reflexivity.
  unfold download_image, requests_get.
  destruct (server (sent w) (c :: u)) as [|r]; [reflexivity|].
  destruct (http_error (status_code r)); [reflexivity|].
  cbv zeta. change (default [] (Some (x :: custom))) with (x :: custom).
  set (w1 := mkWorld (files w) (dirs w) (S (sent w))
               (trace w ++ [Request (c :: u)])).
  set (filename := sanitize (x :: custom)
                   ++ determine_ext (split_head 63%N (c :: u)) r).
  assert (Hfresh : forall q, path_exists w1 q = false ->
            files (write_file q r w1).2 !! p = files w !! p).
  { intros q Hq. rewrite write_file_others; [reflexivity|].
    intros ->. change (path_exists w1 q) with (path_exists w q) in Hq.
    congruence. }
  destruct (path_exists w1 (join save_dir filename)) eqn:Hex; simpl andb;
    cbv iota; [|apply Hfresh, Hex].
  destruct (splitext filename) as [base extension].
  destruct (next_free _ w1 save_dir base extension (join save_dir filename) 1)
    as [q|] eqn:Hq; [|reflexivity].
  apply Hfresh. eapply next_free_fresh, Hq.
Qed.

(** C6.  Under a custom name, when the name and its first [N - 1] suffixed
    variants exist and the variant [_N] does not, the download is written
    to the variant [_N], a path that did not exist, and the files that
    existed are left as they were.  Whatever the outcome of a call with a
    custom name, no file that existed is changed. *)
Theorem download_image_custom_collision :
  (forall (url save_dir filename_prefix custom : str) (w : world)
          (r : Response) (N : nat),
     url <> [] -> custom <> [] ->
     server (sent w) url = GetReturns r ->
     http_error (status_code r) = false ->
     broken r = false ->
     let filename := sanitize custom ++ determine_ext (split_head 63%N url) r in
     (0 < N)%nat ->
     (forall k, (k < N)%nat ->
        path_exists w (nth_path save_dir filename k) = true) ->
     path_exists w (nth_path save_dir filename N) = false ->
     openable (nth_path save_dir filename N) = true ->
     let res :=
       download_image (Some url) save_dir filename_prefix (Some custom) w in
     res.1 = Some (nth_path save_dir filename N)
     /\ files res.2
        = <[nth_path save_dir filename N := concat (chunks r)]> (files w)
     /\ files w !! nth_path save_dir filename N = None)
  /\ (forall (url : option str) (save_dir filename_prefix custom : str)
             (w : world) (p : str) (bytes : list N),
        custom <> [] ->
        files w !! p = Some bytes ->
        files (download_image url save_dir filename_prefix (Some custom) w).2
          !! p = Some bytes).
Proof.
  split.
  - intros url save_dir filename_prefix custom w r N Hurl Hcustom Hs Hok Hb
      filename HN Htaken Hfree Hopen res.
    assert (Hnone : files w !! nth_path save_dir filename N = None).
    { unfold path_exists, existing in Hfree.
      apply bool_decide_eq_false in Hfree.
      apply not_elem_of_dom. set_solver. }
    assert (Hres : res = write_file (nth_path save_dir filename N) r
                           (mkWorld (files w) (dirs w) (S (sent w))
                              (trace w ++ [Request url]))).
    { unfold res. destruct url as [|c u]; [congruence|].
      destruct custom as [|x custom]; [congruence|].
      unfold download_image, requests_get. rewrite Hs, Hok.
      cbv zeta. change (default [] (Some (x :: custom))) with (x :: custom).
      fold filename.
      set (w1 := mkWorld (files w) (dirs w) (S (sent w))
                   (trace w ++ [Request (c :: u)])).
      change (path_exists w1) with (path_exists w).
      rewrite (Htaken 0%nat HN : path_exists w (join save_dir filename) = true).
      simpl andb. cbv iota.
      destruct N as [|n]; [lia|].
      unfold nth_path in Hfree, Hopen, Htaken |- *.
      destruct (splitext filename) as [base extension]. simpl fst in *.
      simpl snd in *.
      assert (Hall : forall k, (1 <= k < S n)%nat ->
                path_exists w (candidate save_dir base extension k) = true).
      { intros k Hk. specialize (Htaken k ltac:(lia)).
        destruct k; [lia|exact Htaken]. }
      assert (Hbound : (n <= size (existing w))%nat).
      { apply (candidates_bounded w save_dir base extension 1 n).
        intros k Hk. apply Hall. lia. }
      change (existing w1) with (existing w).
      rewrite (next_free_finds w1 save_dir base extension (S n)); try lia.
      + reflexivity.
      + apply (Htaken 0%nat). lia.
      + exact Hall.
      + exact Hfree. }
    rewrite Hres, write_file_ok by assumption. simpl. auto.
  - intros url save_dir filename_prefix custom w p bytes Hcustom Hp.
    rewrite download_image_custom_keeps; [exact Hp|exact Hcustom|].
    unfold path_exists, existing. apply bool_decide_eq_true.
    apply elem_of_union_l, elem_of_dom. eauto.
Qed.

(** C3 (amended).  Under the name derived from the address, a first call
    whose request succeeds and whose path is free creates the file; a
    second call for the same address sends its request again and, when
    that request succeeds, returns the path of the file without reading
    the body and without touching any file. *)
Theorem download_image_twice (url save_dir filename_prefix : str)
    (custom_filename : option str) (w : world) (r1 r2 : Response) :
  url <> [] -> no_custom custom_filename ->
  let save_path := default_path save_dir filename_prefix url in
  path_exists w save_path = false ->
  openable save_path = true ->
  server (sent w) url = GetReturns r1 ->
  http_error (status_code r1) = false ->
  broken r1 = false ->
  server (S (sent w)) url = GetReturns r2 ->
  http_error (status_code r2) = false ->
  let first :=
    download_image (Some url) save_dir filename_prefix custom_filename w in
  let second :=
    download_image (Some url) save_dir filename_prefix custom_filename
      first.2 in
  first.1 = Some save_path
  /\ files first.2 = <[save_path := concat (chunks r1)]> (files w)
  /\ second.1 = Some save_path
  /\ files second.2 = files first.2
  /\ dirs second.2 = dirs first.2
  /\ sent second.2 = S (sent first.2)
  /\ trace second.2 = trace first.2 ++ [Request url].
Proof.
  intros Hurl Hcustom save_path Hfree Hopen Hs1 Hok1 Hb1 Hs2 Hok2 first second.
  destruct url as [|c u]; [congruence|].
  assert (Hmode : match custom_filename with
                  | Some (_ :: _) => true
                  | _ => false
                  end = false)
    by (destruct Hcustom as [-> | ->]; reflexivity).
  assert (Hfirst : first
                   = (Some save_path,
                      mkWorld (<[save_path := concat (chunks r1)]> (files w))
                        (dirs w) (S (sent w))
                        ((trace w ++ [Request (c :: u)]) ++ [Pause]))).
  { unfold first, download_image, requests_get. rewrite Hs1, Hok1.
    cbv zeta. rewrite Hmode. simpl andb. cbv iota.
    fold (default_path save_dir filename_prefix (c :: u)). fold save_path.
    change (path_exists (mkWorld (files w) (dirs w) (S (sent w))
                           (trace w ++ [Request (c :: u)])))
      with (path_exists w).
    rewrite Hfree. apply write_file_ok; assumption. }
  assert (Hsecond : second
                    = (Some save_path,
                       mkWorld (files first.2) (dirs first.2)
                         (S (sent first.2))
                         (trace first.2 ++ [Request (c :: u)]))).
  { unfold second. rewrite Hfirst. simpl snd.
    unfold download_image, requests_get. simpl sent. rewrite Hs2, Hok2.
    cbv zeta. rewrite Hmode. simpl andb. cbv iota.
    fold (default_path save_dir filename_prefix (c :: u)). fold save_path.
    simpl files. simpl dirs. simpl trace.
    rewrite path_exists_insert. reflexivity. }
  rewrite Hsecond. rewrite Hfirst. simpl. auto 10.
Qed.

(** ** Further properties of the retriever *)

(** What a call can do to the file system: nothing, in which case it
    returns [None] or a path that existed; or one [write_file] at a path
    that did not exist. *)
Lemma download_image_cases (url : option str) (save_dir filename_prefix : str)
    (custom_filename : option str) (w : world) :
  let res := download_image url save_dir filename_prefix custom_filename w in
  (files res.2 = files w /\ dirs res.2 = dirs w
   /\ (res.1 = None \/ exists p, res.1 = Some p /\ path_exists w p = true))
  \/ (exists q r w1,
        path_exists w q = false /\ files w1 = files w /\ dirs w1 = dirs w
        /\ res = write_file q r w1).
Proof.
  intros res. unfold res.
  destruct url as [[|c u]|]; try solve [left; simpl; auto].
  unfold download_image, requests_get.
  destruct (server (sent w) (c :: u)) as [|r]; [left; simpl; auto|].
  destruct (http_error (status_code r)); [left; simpl; auto|].
  cbv zeta.
  set (w1 := mkWorld (files w) (dirs w) (S (sent w))
               (trace w ++ [Request (c :: u)])).
  change (path_exists w1) with (path_exists w).
  destruct (match custom_filename with
            | Some (_ :: _) => true
            | _ => false
            end).
  - set (filename := sanitize (default [] custom_filename)
                     ++ determine_ext (split_head 63%N (c :: u)) r).
    destruct (path_exists w (join save_dir filename)) eqn:Hex; simpl andb;
      cbv iota.
    + destruct (splitext filename) as [base extension].
      destruct (next_free _ w1 save_dir base extension (join save_dir filename) 1)
        as [q|] eqn:Hq; [|left; simpl; auto].
      right. exists q, r, w1. repeat split.
      apply (next_free_fresh _ _ _ _ _ _ _ _ Hq).
    + right. exists (join save_dir filename), r, w1. auto.
  - set (filename := sanitize (filename_prefix
                               ++ basename (split_head 63%N (c :: u)))).
    simpl andb. cbv iota.
    destruct (path_exists w (join save_dir filename)) eqn:Hex.
    + left. simpl. eauto 6.
    + right. exists (join save_dir filename), r, w1. auto.
Qed.

Lemma write_file_cases (q : str) (r : Response) (w : world) :
  dirs (write_file q r w).2 = dirs w
  /\ ((write_file q r w).1 = None /\ files (write_file q r w).2 = files w
      \/ files (write_file q r w).2 = <[q := concat (chunks r)]> (files w)
         /\ ((write_file q r w).1 = None \/ (write_file q r w).1 = Some q)).
Proof.
  unfold write_file. destruct (openable q); [|simpl; auto].
  destruct (broken r); simpl; auto.
Qed.

(** X11.  A call creates at most one file, at a path that did not exist, and
    changes nothing else: every file that existed keeps its bytes and the
    directories stay, in both naming modes and whatever the outcome. *)
Theorem download_image_frame (url : option str) (save_dir filename_prefix : str)
    (custom_filename : option str) (w : world) :
  let w' :=
    (download_image url save_dir filename_prefix custom_filename w).2 in
  dirs w' = dirs w
  /\ (files w' = files w
      \/ exists q bytes, path_exists w q = false
                         /\ files w' = <[q := bytes]> (files w))
  /\ forall p bytes, files w !! p = Some bytes -> files w' !! p = Some bytes.
Proof.
  intros w'. unfold w'.
  destruct (download_image_cases url save_dir filename_prefix custom_filename w)
    as [(Hf & Hd & _)|(q & r & w1 & Hq & Hf & Hd & ->)].
  - rewrite Hf, Hd. auto.
  - destruct (write_file_cases q r w1) as (Hd' & [(_ & Hf')|(Hf' & _)]);
      rewrite Hd', Hf', ?Hf, Hd.
    + auto.
    + split; [reflexivity|]. split; [right; eauto|].
      intros p bytes Hp. rewrite lookup_insert_ne; [exact Hp|].
      intros ->. unfold path_exists, existing in Hq.
      apply bool_decide_eq_false in Hq. apply Hq.
      apply elem_of_union_l, elem_of_dom. eauto.
Qed.

(** X12.  A path that is returned exists when the call returns. *)
Theorem download_image_returns_existing (url : option str)
    (save_dir filename_prefix : str) (custom_filename : option str)
    (w : world) (p : str) :
  (download_image url save_dir filename_prefix custom_filename w).1 = Some p ->
  path_exists
    (download_image url save_dir filename_prefix custom_filename w).2 p = true.
Proof.
  destruct (download_image_cases url save_dir filename_prefix custom_filename w)
    as [(Hf & Hd & Hres)|(q & r & w1 & Hq & Hf & Hd & ->)].
  - intros Hp. destruct Hres as [Hnone|(p' & Hp' & Hex)]; [congruence|].
    assert (p' = p) as -> by congruence.
    unfold path_exists, existing in *. rewrite Hf, Hd. exact Hex.
  - unfold write_file. destruct (openable q); [|discriminate].
    destruct (broken r); [discriminate|].
    simpl. intros [= ->]. unfold path_exists, existing.
    apply bool_decide_eq_true. simpl.
    apply elem_of_union_l, elem_of_dom. rewrite lookup_insert_eq. eauto.
Qed.

(** X13.  A request that raises or is answered with an error status gives
    [None]: one request is sent, a message is printed, and the file system
    is as it was. *)
Theorem download_image_request_failure (url save_dir filename_prefix : str)
    (custom_filename : option str) (w : world) :
  url <> [] ->
  (server (sent w) url = GetRaises
   \/ exists r, server (sent w) url = GetReturns r
                /\ http_error (status_code r) = true) ->
  download_image (Some url) save_dir filename_prefix custom_filename w
  = (None,
     mkWorld (files w) (dirs w) (S (sent w))
       (trace w ++ [Request url; Print])).
Proof.
  intros Hurl Hfail. destruct url as [|c u]; [congruence|].
  unfold download_image, requests_get, log.
  destruct Hfail as [-> | (r & -> & ->)]; simpl;
    rewrite <- app_assoc; reflexivity.
Qed.

(** In the mode without custom name the only path a call returns is the
    one derived from the address. *)
Lemma download_image_default_path (url save_dir filename_prefix : str)
    (custom_filename : option str) (w : world) (p : str) :
  no_custom custom_filename ->
  (download_image (Some url) save_dir filename_prefix custom_filename w).1
  = Some p ->
  p = default_path save_dir filename_prefix url.
Proof.
  intros Hcustom.
  assert (Hmode : match custom_filename with
                  | Some (_ :: _) => true
                  | _ => false
                  end = false)
    by (destruct Hcustom as [-> | ->]; reflexivity).
  destruct url as [|c u]; [discriminate|].
  unfold download_image, requests_get.
  destruct (server (sent w) (c :: u)) as [|r]; [discriminate|].
  destruct (http_error (status_code r)); [discriminate|].
  cbv zeta. rewrite Hmode. simpl andb. cbv iota.
  fold (default_path save_dir filename_prefix (c :: u)).
  destruct (path_exists _ _); [simpl; congruence|].
  unfold write_file. destruct (openable _); [|discriminate].
  destruct (broken r); [discriminate|]. simpl. congruence.
Qed.

(** X14.  A download whose stream breaks leaves the chunks received so far in
    the file and returns [None]; in the mode without custom name the next
    call for the same address finds the file, returns its path as already
    downloaded and leaves the truncated bytes in place. *)
Theorem download_image_truncated_is_kept (url save_dir filename_prefix : str)
    (custom_filename : option str) (w : world) (r1 r2 : Response) :
  url <> [] -> no_custom custom_filename ->
  let save_path := default_path save_dir filename_prefix url in
  path_exists w save_path = false ->
  openable save_path = true ->
  server (sent w) url = GetReturns r1 ->
  http_error (status_code r1) = false ->
  broken r1 = true ->
  server (S (sent w)) url = GetReturns r2 ->
  http_error (status_code r2) = false ->
  let first :=
    download_image (Some url) save_dir filename_prefix custom_filename w in
  let second :=
    download_image (Some url) save_dir filename_prefix custom_filename
      first.2 in
  first.1 = None
  /\ files first.2 !! save_path = Some (concat (chunks r1))
  /\ second.1 = Some save_path
  /\ files second.2 = files first.2.
Proof.
  intros Hurl Hcustom save_path Hfree Hopen Hs1 Hok1 Hb1 Hs2 Hok2 first second.
  destruct url as [|c u]; [congruence|].
  assert (Hmode : match custom_filename with
                  | Some (_ :: _) => true
                  | _ => false
                  end = false)
    by (destruct Hcustom as [-> | ->]; reflexivity).
  assert (Hfirst : first
                   = (None,
                      mkWorld (<[save_path := concat (chunks r1)]> (files w))
                        (dirs w) (S (sent w))
                        ((trace w ++ [Request (c :: u)]) ++ [Print]))).
  { unfold first, download_image, requests_get. rewrite Hs1, Hok1.
    cbv zeta. rewrite Hmode. simpl andb. cbv iota.
    fold (default_path save_dir filename_prefix (c :: u)). fold save_path.
    change (path_exists (mkWorld (files w) (dirs w) (S (sent w))
                           (trace w ++ [Request (c :: u)])))
      with (path_exists w).
    rewrite Hfree. unfold write_file. rewrite Hopen, Hb1. reflexivity. }
  assert (Hsecond : second
                    = (Some save_path,
                       mkWorld (files first.2) (dirs first.2)
                         (S (sent first.2))
                         (trace first.2 ++ [Request (c :: u)]))).
  { unfold second. rewrite Hfirst. simpl snd.
    unfold download_image, requests_get. simpl sent. rewrite Hs2, Hok2.
    cbv zeta. rewrite Hmode. simpl andb. cbv iota.
    fold (default_path save_dir filename_prefix (c :: u)). fold save_path.
    simpl files. simpl dirs. simpl trace.
    rewrite path_exists_insert. reflexivity. }
  rewrite Hsecond, Hfirst. simpl. rewrite lookup_insert_eq. auto.
Qed.

Lemma next_free_least (w : world) (save_dir base extension : str) (fuel : nat) :
  forall (save_path : str) (counter : nat) (q : str),
  path_exists w save_path = true ->
  next_free fuel w save_dir base extension save_path counter = Some q ->
  exists n, (counter <= n)%nat
    /\ q = candidate save_dir base extension n
    /\ path_exists w q = false
    /\ forall k, (counter <= k < n)%nat ->
         path_exists w (candidate save_dir base extension k) = true.
Proof.
  induction fuel as [|fuel IH]; intros p c q Hp; simpl; rewrite Hp;
    [discriminate|].
  intros Hq.
  destruct (path_exists w (candidate save_dir base extension c)) eqn:Hc.
  - destruct (IH _ _ _ Hc Hq) as (n & Hn & -> & Hfree & Hall).
    exists n. repeat split; [lia|exact Hfree|].
    intros k Hk. destruct (decide (k = c)) as [->|Hne]; [exact Hc|].
    apply Hall. lia.
  - assert (q = candidate save_dir base extension c) as ->.
    { destruct fuel; simpl in Hq; rewrite Hc in Hq; congruence. }
    exists c. repeat split; [lia|exact Hc|]. intros k Hk. lia.
Qed.

(** X15.  Under a custom name the loop always ends, and the file is written to
    the first free path of the sequence name, name [_1], name [_2], ... *)
Theorem download_image_least_suffix (url save_dir filename_prefix custom : str)
    (w : world) (r : Response) :
  url <> [] -> custom <> [] ->
  server (sent w) url = GetReturns r ->
  http_error (status_code r) = false ->
  let filename := sanitize custom ++ determine_ext (split_head 63%N url) r in
  exists n,
    (forall k, (k < n)%nat ->
       path_exists w (nth_path save_dir filename k) = true)
    /\ path_exists w (nth_path save_dir filename n) = false
    /\ download_image (Some url) save_dir filename_prefix (Some custom) w
       = write_file (nth_path save_dir filename n) r
           (mkWorld (files w) (dirs w) (S (sent w))
              (trace w ++ [Request url])).
Proof.
  intros Hurl Hcustom Hs Hok filename.
  destruct url as [|c u]; [congruence|].
  destruct custom as [|x custom]; [congruence|].
  unfold download_image, requests_get. rewrite Hs, Hok.
  cbv zeta. change (default [] (Some (x :: custom))) with (x :: custom).
  fold filename.
  set (w1 := mkWorld (files w) (dirs w) (S (sent w))
               (trace w ++ [Request (c :: u)])).
  change (path_exists w1) with (path_exists w).
  destruct (path_exists w (join save_dir filename)) eqn:Hex; simpl andb;
    cbv iota.
  - unfold nth_path.
    destruct (splitext filename) as [base extension]. simpl fst. simpl snd.
    destruct (next_free _ w1 save_dir base extension (join save_dir filename) 1)
      as [q|] eqn:Hq; [|exfalso; exact (next_free_total _ _ _ _ _ _ Hq)].
    destruct (next_free_least w1 _ _ _ _ _ _ _ Hex Hq)
      as (n & Hn & -> & Hfree & Hall).
    change (path_exists w1) with (path_exists w) in Hfree, Hall.
    destruct n as [|n]; [lia|].
    exists (S n). repeat split; [|exact Hfree].
    intros [|k] Hk; [exact Hex|]. apply Hall. lia.
  - exists 0%nat. repeat split; [lia|exact Hex].
Qed.

(** ** File names *)

Lemma lstrip_idem (s : str) : lstrip (lstrip s) = lstrip s.
Proof.
  induction s as [|c s IH]; [reflexivity|].
  simpl. destruct (is_space c) eqn:E; [exact IH|]. simpl. rewrite E.
  reflexivity.
Qed.

Lemma lstrip_snoc (l : str) (c : char) :
  is_space c = false -> exists l', lstrip (l ++ [c]) = l' ++ [c].
Proof.
  intros Hc. induction l as [|x l [l' IH]]; simpl.
  - rewrite Hc. exists []. reflexivity.
  - destruct (is_space x); [eauto|]. exists (x :: l). reflexivity.
Qed.

Lemma lstrip_head (s : str) :
  lstrip s = [] \/ exists c t, lstrip s = c :: t /\ is_space c = false.
Proof.
  induction s as [|c s IH]; [left; reflexivity|].
  simpl. destruct (is_space c) eqn:E; [exact IH|]. right. eauto.
Qed.

Lemma strip_idem (s : str) : strip (strip s) = strip s.
Proof.
  unfold strip.
  assert (Hl : lstrip (rstrip (lstrip s)) = rstrip (lstrip s)).
  { destruct (lstrip_head s) as [-> | (c & t & -> & Hc)]; [reflexivity|].
    unfold rstrip. simpl rev.
    destruct (lstrip_snoc (rev t) c Hc) as [l' ->].
    rewrite rev_unit. simpl. rewrite Hc. reflexivity. }
  rewrite Hl. unfold rstrip. rewrite rev_involutive, lstrip_idem.
  reflexivity.
Qed.

Lemma lstrip_Forall (P : char -> Prop) (s : str) :
  Forall P s -> Forall P (lstrip s).
Proof.
  induction 1 as [|c s Hc Hs IH]; simpl; [constructor|].
  destruct (is_space c); [exact IH|]. constructor; assumption.
Qed.

Lemma strip_Forall (P : char -> Prop) (s : str) :
  Forall P s -> Forall P (strip s).
Proof.
  intros Hs. unfold strip, rstrip.
  apply List.Forall_rev, lstrip_Forall, List.Forall_rev, lstrip_Forall, Hs.
Qed.

Lemma filter_keep_Forall (s : str) :
  Forall (fun c => keep c = true) (List.filter keep s).
Proof.
  induction s as [|c s IH]; simpl; [constructor|].
  destruct (keep c) eqn:E; [constructor; assumption|exact IH].
Qed.

Lemma filter_keep_all (s : str) :
  Forall (fun c => keep c = true) s -> List.filter keep s = s.
Proof.
  induction 1 as [|c s Hc _ IH]; simpl; [reflexivity|].
  rewrite Hc, IH. reflexivity.
Qed.

Lemma sanitize_kept (s : str) : Forall (fun c => keep c = true) (sanitize s).
Proof. apply strip_Forall, filter_keep_Forall. Qed.

(** X16.  Sanitising twice is sanitising once: the name that [app.py] has
    already sanitised (line 165) goes through line 123 unchanged. *)
Theorem sanitize_idempotent (s : str) : sanitize (sanitize s) = sanitize s.
Proof.
  unfold sanitize at 1. rewrite (filter_keep_all _ (sanitize_kept s)).
  unfold sanitize. apply strip_idem.
Qed.

Lemma join_inside (a f : str) :
  slash ∉ f -> join a f = a ++ f \/ join a f = a ++ slash :: f.
Proof.
  intros Hf. unfold join. destruct f as [|c f].
  - destruct (last a) as [l|] eqn:El.
    + destruct (l =? slash)%N; [left; symmetry; apply app_nil_r|right; reflexivity].
    + left. apply last_None in El. subst a. reflexivity.
  - destruct (N.eqb_spec c slash) as [->|_].
    + exfalso. apply Hf. left.
    + destruct (last a) as [l|] eqn:El.
      * destruct (l =? slash)%N; auto.
      * left. apply last_None in El. subst a. reflexivity.
Qed.

(** X17.  When the slash is neither a letter nor a digit, a path returned in the
    mode without custom name is [save_dir], a separator if [save_dir] needs
    one, and a name that holds no slash, whatever the address and the
    prefix are.  Nothing more is said of the name: it can be empty, [.] or
    [..], and the path is then [save_dir] itself or its parent. *)
Theorem download_image_name_has_no_slash (url save_dir filename_prefix : str)
    (custom_filename : option str) (w : world) (p : str) :
  isalpha slash = false -> isdigit slash = false ->
  no_custom custom_filename ->
  (download_image (Some url) save_dir filename_prefix custom_filename w).1
  = Some p ->
  exists f, (slash ∉ f) /\ (p = save_dir ++ f \/ p = save_dir ++ slash :: f).
Proof.
  intros Ha Hd Hcustom Hp.
  apply download_image_default_path in Hp; [|exact Hcustom]. subst p.
  unfold default_path.
  set (f := sanitize (filename_prefix ++ basename (split_head 63%N url))).
  exists f. split; [|apply join_inside]; 
    (intros Hin; pose proof (sanitize_kept
                      (filename_prefix ++ basename (split_head 63%N url))) as Hk;
     rewrite List.Forall_forall in Hk;
     apply list_elem_of_In in Hin; specialize (Hk _ Hin);
     unfold keep in Hk; rewrite Ha, Hd in Hk; discriminate).
Qed.

End retriever.

(** ** A concrete environment for the examples *)

(** The ASCII part of the two Unicode tables. *)
Definition ascii_alpha (c : char) : bool :=
  ((65 <=? c) && (c <=? 90) || (97 <=? c) && (c <=? 122))%N.

Definition ascii_digit (c : char) : bool := ((48 <=? c) && (c <=? 57))%N.

(** The statuses for which [raise_for_status] raises. *)
Definition client_or_server_error (s : Z) : bool := (400 <=? s) && (s <? 600).

(** One line of the table of [mimetypes]. *)
Definition guess_png (ct : str) : option str :=
  if bool_decide (ct = py "image/png") then Some (py ".png") else None.

(** A four-byte image served in two chunks. *)
Definition png : Response :=
  mkResponse 200 (Some (py "image/png")) [py "ab"; py "cd"] false.

Definition always_png (n : nat) (url : str) : get_outcome := GetReturns png.

(** A server that answers the first request only. *)
Definition png_once (n : nat) (url : str) : get_outcome :=
  match n with
  | O => GetReturns png
  | S _ => GetRaises
  end.

(** An empty directory [imgs]. *)
Definition empty_imgs : world := mkWorld ∅ {[py "imgs"]} 0 [].

(** The directory after two downloads under the name [Burger]. *)
Definition two_burgers : world :=
  mkWorld {[py "imgs/Burger.png" := py "abcd"; py "imgs/Burger_1.png" := py "abcd"]}
    {[py "imgs"]} 2 [].

(** A response that declares no content type. *)
Definition untyped : Response := mkResponse 200 None [py "ab"; py "cd"] false.

Definition always_untyped (n : nat) (url : str) : get_outcome :=
  GetReturns untyped.

(** The amended C8 on three downloads under the name [Burger]: the address
    has an extension before its query, and the content type is not looked
    at; the address has none and the response is served as [image/png];
    the address has none and the response declares no content type. *)
Lemma download_image_extension_witness :
  (download_image always_png client_or_server_error guess_png ascii_alpha
     ascii_digit (fun _ => true) (Some (py "http://x/a.b/photo.JPEG?v=1.5"))
     (py "imgs") [] (Some (py "Burger")) empty_imgs).1
  = Some (py "imgs/Burger.JPEG")
  /\ (download_image always_png client_or_server_error guess_png ascii_alpha
        ascii_digit (fun _ => true) (Some (py "http://x/a.b/img?id=3"))
        (py "imgs") [] (Some (py "Burger")) empty_imgs).1
     = Some (py "imgs/Burger.png")
  /\ (download_image always_untyped client_or_server_error guess_png
        ascii_alpha ascii_digit (fun _ => true) (Some (py "http://x/.img"))
        (py "imgs") [] (Some (py "Burger")) empty_imgs).1
     = Some (py "imgs/Burger.jpg").
Proof.
  split; [|split].
  - apply (download_image_extension always_png client_or_server_error
             guess_png ascii_alpha ascii_digit (fun _ => true)
             (py "http://x/a.b/photo.JPEG?v=1.5") (py "http://x/a.b/photo.JPEG")
             (py "imgs") [] (py "Burger") (py ".JPEG") png empty_imgs);
      try reflexivity; try discriminate.
    + split; [|right; exists (py "v=1.5"); reflexivity].
      rewrite list_elem_of_In. vm_compute. intuition discriminate.
    + apply (ext_of_url _ _ _ (py "JPEG")).
      exists (py "http://x/a.b/"), (py "photo").
      split; [reflexivity|]. split; [right; reflexivity|].
      split; [rewrite list_elem_of_In; vm_compute; intuition discriminate|].
      split; [exists 112%N; split; [rewrite list_elem_of_In; left; reflexivity|discriminate]|].
      split; rewrite list_elem_of_In; vm_compute; intuition discriminate.
  - apply (download_image_extension always_png client_or_server_error
             guess_png ascii_alpha ascii_digit (fun _ => true)
             (py "http://x/a.b/img?id=3") (py "http://x/a.b/img")
             (py "imgs") [] (py "Burger") (py ".png") png empty_imgs);
      try reflexivity; try discriminate.
    + split; [|right; exists (py "id=3"); reflexivity].
      rewrite list_elem_of_In. vm_compute. intuition discriminate.
    + apply (ext_of_content_type _ _ _ (py "image/png"));
        try reflexivity; try discriminate.
      exists (py "http://x/a.b/"), [], (py "img").
      split; [reflexivity|]. split; [right; reflexivity|].
      split; [constructor|].
      split; rewrite list_elem_of_In; vm_compute; intuition discriminate.
  - apply (download_image_extension always_untyped client_or_server_error
             guess_png ascii_alpha ascii_digit (fun _ => true)
             (py "http://x/.img") (py "http://x/.img")
             (py "imgs") [] (py "Burger") (py ".jpg") untyped empty_imgs);
      try reflexivity; try discriminate.
    + split; [|left; reflexivity].
      rewrite list_elem_of_In. vm_compute. intuition discriminate.
    + apply ext_default; [|exact I].
      exists (py "http://x/"), (py "."), (py "img").
      split; [reflexivity|]. split; [right; reflexivity|].
      split; [repeat constructor|].
      split; rewrite list_elem_of_In; vm_compute; intuition discriminate.
Defined.

(** C8 as the specification words it does not hold for every download.
    Without a custom name the extension that the preference order gives is
    not used: the address has no extension and the response is served as
    [image/png], the order gives [.png], and the file is saved under the
    name taken from the address, [img], with no extension.  Under a custom
    name the same download is saved with [.png]. *)
Lemma download_image_extension_counterexample :
  determine_ext guess_png (split_head 63%N (py "http://x/img?id=3")) png
  = py ".png"
  /\ (let res :=
        download_image always_png client_or_server_error guess_png
          ascii_alpha ascii_digit (fun _ => true)
          (Some (py "http://x/img?id=3")) (py "imgs") [] None empty_imgs in
      res.1 = Some (py "imgs/img")
      /\ files res.2 = {[py "imgs/img" := py "abcd"]})
  /\ (download_image always_png client_or_server_error guess_png ascii_alpha
        ascii_digit (fun _ => true) (Some (py "http://x/img?id=3"))
        (py "imgs") [] (Some (py "Burger")) empty_imgs).1
     = Some (py "imgs/Burger.png").
Proof.
  split; [vm_compute; reflexivity|]. split; [|vm_compute; reflexivity].
  split; [vm_compute; reflexivity|].
  apply map_eq. intros p.
  unfold download_image, requests_get, always_png. simpl.
  reflexivity.
Qed.

(** C6 with two prior files: the third download under the name [Burger]
    goes to [Burger_2.png]. *)
Lemma download_image_custom_collision_witness :
  let res :=
    download_image always_png client_or_server_error guess_png ascii_alpha
      ascii_digit (fun _ => true) (Some (py "http://x/img")) (py "imgs") []
      (Some (py "Burger")) two_burgers in
  res.1 = Some (py "imgs/Burger_2.png")
  /\ files res.2 = <[py "imgs/Burger_2.png" := py "abcd"]> (files two_burgers)
  /\ files two_burgers !! py "imgs/Burger_2.png" = None.
Proof.
  apply (proj1 (download_image_custom_collision always_png
                  client_or_server_error guess_png ascii_alpha ascii_digit
                  (fun _ => true))
           (py "http://x/img") (py "imgs") [] (py "Burger") two_burgers png
           2%nat); try reflexivity; try discriminate.
  - lia.
  - intros [|[|k]] Hk; [reflexivity|reflexivity|lia].
Defined.

(** The amended C3 on an empty directory. *)
Lemma download_image_twice_witness :
  let dl :=
    download_image always_png client_or_server_error guess_png ascii_alpha
      ascii_digit (fun _ => true) (Some (py "http://x/a.jpg?v=2"))
      (py "imgs") [] None in
  (dl empty_imgs).1 = Some (py "imgs/a.jpg")
  /\ files (dl empty_imgs).2 = <[py "imgs/a.jpg" := py "abcd"]> ∅
  /\ (dl (dl empty_imgs).2).1 = Some (py "imgs/a.jpg")
  /\ files (dl (dl empty_imgs).2).2 = files (dl empty_imgs).2
  /\ dirs (dl (dl empty_imgs).2).2 = dirs (dl empty_imgs).2
  /\ sent (dl (dl empty_imgs).2).2 = S (sent (dl empty_imgs).2)
  /\ trace (dl (dl empty_imgs).2).2
     = trace (dl empty_imgs).2 ++ [Request (py "http://x/a.jpg?v=2")].
Proof.
  apply (download_image_twice always_png client_or_server_error guess_png
           ascii_alpha ascii_digit (fun _ => true) (py "http://x/a.jpg?v=2")
           (py "imgs") [] None empty_imgs png png);
    try reflexivity; try discriminate.
  left. reflexivity.
Defined.

(** C3 as the specification words it does not hold: the second call sends
    a second request, and when that request fails the call returns [None]
    although the file is there. *)
Lemma download_image_twice_counterexample :
  let url := py "http://x/a.jpg" in
  let dl server :=
    download_image server client_or_server_error guess_png ascii_alpha
      ascii_digit (fun _ => true) (Some url) (py "imgs") [] None in
  ((dl always_png empty_imgs).1 = Some (py "imgs/a.jpg")
   /\ (dl always_png (dl always_png empty_imgs).2).1 = Some (py "imgs/a.jpg")
   /\ trace (dl always_png (dl always_png empty_imgs).2).2
      = [Request url; Pause; Request url])
  /\ ((dl png_once empty_imgs).1 = Some (py "imgs/a.jpg")
      /\ path_exists (dl png_once empty_imgs).2 (py "imgs/a.jpg") = true
      /\ (dl png_once (dl png_once empty_imgs).2).1 = None
      /\ trace (dl png_once (dl png_once empty_imgs).2).2
         = [Request url; Pause; Request url; Print]).
Proof.
  vm_compute. repeat split; reflexivity.
Qed.

Lemma download_image_returns_existing_witness :
  path_exists
    (download_image always_png client_or_server_error guess_png ascii_alpha
       ascii_digit (fun _ => true) (Some (py "http://x/img")) (py "imgs") []
       (Some (py "Burger")) two_burgers).2 (py "imgs/Burger_2.png") = true.
Proof.
  apply download_image_returns_existing. vm_compute. reflexivity.
Defined.

(** A server that answers every request with [404]. *)
Definition not_found (n : nat) (url : str) : get_outcome :=
  GetReturns (mkResponse 404 None [] false).

Lemma download_image_request_failure_witness :
  download_image not_found client_or_server_error guess_png ascii_alpha
    ascii_digit (fun _ => true) (Some (py "http://x/a.jpg")) (py "imgs") []
    (Some (py "Burger")) two_burgers
  = (None,
     mkWorld (files two_burgers) (dirs two_burgers) 3
       [Request (py "http://x/a.jpg"); Print]).
Proof.
  apply (download_image_request_failure not_found client_or_server_error
           guess_png ascii_alpha ascii_digit (fun _ => true)
           (py "http://x/a.jpg") (py "imgs") [] (Some (py "Burger"))
           two_burgers).
  - discriminate.
  - right. eexists. split; reflexivity.
Defined.

(** A server whose first answer breaks after one chunk. *)
Definition broken_then_png (n : nat) (url : str) : get_outcome :=
  match n with
  | O => GetReturns (mkResponse 200 (Some (py "image/png")) [py "ab"] true)
  | S _ => GetReturns png
  end.

Lemma download_image_truncated_is_kept_witness :
  let dl :=
    download_image broken_then_png client_or_server_error guess_png
      ascii_alpha ascii_digit (fun _ => true) (Some (py "http://x/a.png"))
      (py "imgs") [] None in
  (dl empty_imgs).1 = None
  /\ files (dl empty_imgs).2 !! py "imgs/a.png" = Some (py "ab")
  /\ (dl (dl empty_imgs).2).1 = Some (py "imgs/a.png")
  /\ files (dl (dl empty_imgs).2).2 = files (dl empty_imgs).2.
Proof.
  apply (download_image_truncated_is_kept broken_then_png
           client_or_server_error guess_png ascii_alpha ascii_digit
           (fun _ => true) (py "http://x/a.png") (py "imgs") [] None
           empty_imgs
           (mkResponse 200 (Some (py "image/png")) [py "ab"] true) png);
    try reflexivity; try discriminate.
  left. reflexivity.
Defined.

Lemma download_image_least_suffix_witness :
  let filename :=
    sanitize ascii_alpha ascii_digit (py "Burger")
    ++ determine_ext guess_png (split_head 63%N (py "http://x/img")) png in
  exists n,
    (forall k, (k < n)%nat ->
       path_exists two_burgers (nth_path (py "imgs") filename k) = true)
    /\ path_exists two_burgers (nth_path (py "imgs") filename n) = false
    /\ download_image always_png client_or_server_error guess_png ascii_alpha
         ascii_digit (fun _ => true) (Some (py "http://x/img")) (py "imgs")
         [] (Some (py "Burger")) two_burgers
       = write_file (fun _ => true) (nth_path (py "imgs") filename n) png
           (mkWorld (files two_burgers) (dirs two_burgers) 3
              [Request (py "http://x/img")]).
Proof.
  apply (download_image_least_suffix always_png client_or_server_error
           guess_png ascii_alpha ascii_digit (fun _ => true)
           (py "http://x/img") (py "imgs") [] (py "Burger") two_burgers png);
    try reflexivity; discriminate.
Defined.

Lemma download_image_name_has_no_slash_witness :
  exists f,
    (slash ∉ f)
    /\ (py "imgs/....etcpasswd" = py "imgs" ++ f
        \/ py "imgs/....etcpasswd" = py "imgs" ++ slash :: f).
Proof.
  apply (download_image_name_has_no_slash always_png client_or_server_error
           guess_png ascii_alpha ascii_digit (fun _ => true)
           (py "http://x/passwd") (py "imgs") (py "../../etc/") None
           empty_imgs).
  - reflexivity.
  - reflexivity.
  - left. reflexivity.
  - vm_compute. reflexivity.
Defined.

End Retriever.

(* ===================================================================== *)
(** * The orchestration of [app.py]: session name and locale addresses    *)
(* ===================================================================== *)

Module App.

Import Retriever.

(** [s.split(sep)] for a single character [sep]. *)
Fixpoint split (sep : char) (s : str) : list (list N) :=
  match s with
  | [] => [[]]
  | c :: s' =>
      if (c =? sep)%N then [] :: split sep s'
      else
        match split sep s' with
        | seg :: segs => (c :: seg) :: segs
        | [] => [[c]]
        end
  end.

(** [parts.index(x)] as an option: the first position of [x]. *)
Fixpoint index (x : str) (parts : list (list N)) : option nat :=
  match parts with
  | [] => None
  | p :: parts' => if bool_decide (p = x) then Some O else S <$> index x parts'
  end.

(** Lines 53-58, on the path of the address: the segment two places after
    the first segment [restaurant]. *)
Definition rest_name (path : str) : str :=
  let path_parts := split slash path in
  match index (py "restaurant") path_parts with
  | Some idx => default (py "unknown") (path_parts !! (idx + 2)%nat)
  | None => py "unknown"
  end.

(** [s.replace("/ar/", "/")]: the occurrences are replaced from the left
    and do not overlap. *)
Fixpoint replace_ar (s : str) : str :=
  match s with
  | [] => []
  | a :: t =>
      match t with
      | b :: c :: d :: rest =>
          if ((a =? 47) && (b =? 97) && (c =? 114) && (d =? 47))%N
          then 47%N :: replace_ar rest
          else a :: replace_ar t
      | _ => a :: replace_ar t
      end
  end.

(** The components of [urlparse(url_input)] that the function reads. *)
Record ParseResult := mkParseResult {
  scheme : str;
  netloc : str;
  path : str;
  query : str
}.

(** Lines 70-79: the English and the Arabic address. *)
Definition locale_urls (url_input : str) (parsed_url : ParseResult)
  : str * str :=
  let path := path parsed_url in
  if is_infix (py "/ar/") path then
    (scheme parsed_url ++ py "://" ++ netloc parsed_url ++ replace_ar path
     ++ py "?" ++ query parsed_url,
     url_input)
  else
    (url_input,
     scheme parsed_url ++ py "://" ++ netloc parsed_url ++ py "/ar" ++ path
     ++ py "?" ++ query parsed_url).

Lemma split_no_sep (sep : char) (s : str) :
  Forall (fun seg => sep ∉ seg) (split sep s).
Proof.
  induction s as [|c s IH]; simpl.
  - repeat constructor. apply not_elem_of_nil.
  - destruct (N.eqb_spec c sep) as [->|Hne].
    + constructor; [apply not_elem_of_nil|exact IH].
    + destruct (split sep s) as [|seg segs].
      * repeat constructor. intros Hin. apply list_elem_of_singleton in Hin.
        congruence.
      * inversion_clear IH as [|? ? Hseg Hsegs]. constructor; [|exact Hsegs].
        intros Hin. apply elem_of_cons in Hin as [Hin|Hin]; [congruence|].
        exact (Hseg Hin).
Qed.

(** X18.  The name of the restaurant in the session directory is [unknown] or a
    segment of the path, and it holds no slash: the session directory is
    one level below [scraped_data]. *)
Theorem rest_name_segment (path : str) :
  (rest_name path = py "unknown" \/ rest_name path ∈ split slash path)
  /\ slash ∉ rest_name path.
Proof.
  assert (H : rest_name path = py "unknown"
              \/ rest_name path ∈ split slash path).
  { unfold rest_name.
    destruct (index (py "restaurant") (split slash path)) as [idx|];
      [|left; reflexivity].
    destruct (split slash path !! (idx + 2)%nat) as [seg|] eqn:E;
      [|left; reflexivity].
    right. simpl. eapply list_elem_of_lookup_2, E. }
  split; [exact H|].
  destruct H as [-> | Hin].
  - intros Hin. vm_compute in Hin.
    repeat (apply elem_of_cons in Hin as [Hin|Hin]; [discriminate|]).
    exact (not_elem_of_nil _ Hin).
  - pose proof (split_no_sep slash path) as Hall.
    rewrite Forall_forall in Hall. apply Hall, Hin.
Qed.

Lemma replace_ar_cons (a b c d : char) (rest : str) :
  replace_ar (a :: b :: c :: d :: rest)
  = if ((a =? 47) && (b =? 97) && (c =? 114) && (d =? 47))%N
    then 47%N :: replace_ar rest
    else a :: replace_ar (b :: c :: d :: rest).
Proof. reflexivity. Qed.

Lemma replace_ar_absent (s : str) :
  is_infix (py "/ar/") s = false -> replace_ar s = s.
Proof.
  induction s as [|a t IH]; [reflexivity|].
  intros Hno. cbn [is_infix] in Hno.
  destruct (strip_prefix (py "/ar/") (a :: t)) eqn:Hp; [discriminate|].
  specialize (IH Hno).
  destruct t as [|b [|c [|d rest]]]; try reflexivity.
  rewrite replace_ar_cons.
  destruct ((a =? 47) && (b =? 97) && (c =? 114) && (d =? 47))%N eqn:E.
  - exfalso. apply andb_prop in E as [E Hd]. apply andb_prop in E as [E Hc].
    apply andb_prop in E as [Ha Hb].
    apply N.eqb_eq in Ha, Hb, Hc, Hd. subst. discriminate.
  - rewrite IH. reflexivity.
Qed.

(** X19.  Round trip of the locale addresses: for a path that starts with a
    slash and does not contain [/ar/], the Arabic address is the input
    address with [/ar] put before the path, and deriving the addresses
    again from that Arabic path gives back the original path in the English
    address. *)
Theorem locale_urls_round_trip (url_input url_ar : str) (p : ParseResult)
    (rest : str) :
  path p = slash :: rest ->
  is_infix (py "/ar/") (path p) = false ->
  locale_urls url_input p
  = (url_input,
     scheme p ++ py "://" ++ netloc p ++ py "/ar" ++ path p ++ py "?" ++ query p)
  /\ locale_urls url_ar
       (mkParseResult (scheme p) (netloc p) (py "/ar" ++ path p) (query p))
     = (scheme p ++ py "://" ++ netloc p ++ path p ++ py "?" ++ query p,
        url_ar).
Proof.
  intros Hpath Hno. unfold locale_urls. rewrite Hno. split; [reflexivity|].
  cbn [path scheme netloc query]. rewrite Hpath.
  assert (Hin : is_infix (py "/ar/") (py "/ar" ++ slash :: rest) = true)
    by reflexivity.
  rewrite Hin. do 4 f_equal.
  assert (Hrest : is_infix (py "/ar/") rest = false).
  { rewrite Hpath in Hno. cbn [is_infix] in Hno.
    destruct (strip_prefix (py "/ar/") (slash :: rest)); [discriminate|].
    exact Hno. }
  change (replace_ar (py "/ar" ++ slash :: rest)) with (47%N :: replace_ar rest).
  rewrite (replace_ar_absent rest Hrest). reflexivity.
Qed.

Lemma locale_urls_round_trip_witness :
  let p := mkParseResult (py "https") (py "x.test")
             (py "/restaurant/ae/burger-house") (py "lang=en") in
  locale_urls (py "https://x.test/restaurant/ae/burger-house?lang=en") p
  = (py "https://x.test/restaurant/ae/burger-house?lang=en",
     py "https://x.test/ar/restaurant/ae/burger-house?lang=en")
  /\ locale_urls (py "https://x.test/ar/restaurant/ae/burger-house?lang=en")
       (mkParseResult (py "https") (py "x.test")
          (py "/ar/restaurant/ae/burger-house") (py "lang=en"))
     = (py "https://x.test/restaurant/ae/burger-house?lang=en",
        py "https://x.test/ar/restaurant/ae/burger-house?lang=en").
Proof.
  intros p.
  apply (locale_urls_round_trip
           (py "https://x.test/restaurant/ae/burger-house?lang=en")
           (py "https://x.test/ar/restaurant/ae/burger-house?lang=en") p
           (py "restaurant/ae/burger-house")); reflexivity.
Defined.

End App.
